(** * Shallow embedding of the sampling core of sd3_impls.py

    Scalars of the torch tensors are modelled as exact rationals [Q]; a
    per-sample tensor is flattened to a [list Q] and a batched tensor is a
    list of samples.  Elementwise torch arithmetic between tensors of equal
    shape is [zipWith]; a 0-d tensor broadcast over a sample is a [map]. *)

From Stdlib Require Import QArith Qfield Qround List ZArith Lia Bool.
Import ListNotations.

Open Scope Q_scope.

Module Tensor.

Definition Sample := list Q.
Definition Batch := list Sample.

Fixpoint zipWith {A B C : Type} (f : A -> B -> C) (l1 : list A) (l2 : list B)
  : list C :=
  match l1, l2 with
  | a :: l1', b :: l2' => f a b :: zipWith f l1' l2'
  | _, _ => []
  end.

(** [a + b], [a - b] on batched tensors of the same shape. *)
Definition badd (a b : Batch) : Batch := zipWith (zipWith Qplus) a b.
Definition bsub (a b : Batch) : Batch := zipWith (zipWith Qminus) a b.

(** [a * c] and [a / c] for a python/0-d scalar [c]. *)
Definition bmul_s (a : Batch) (c : Q) : Batch := map (map (fun v => v * c)) a.
Definition bdiv_s (a : Batch) (c : Q) : Batch := map (map (fun v => v / c)) a.

(** Elementwise equality of real-valued tensors. *)
Definition beq (a b : Batch) : Prop := Forall2 (Forall2 Qeq) a b.

(** Two batched tensors of the same shape. *)
Definition same_shape (a b : Batch) : Prop :=
  Forall2 (fun r s => length r = length s) a b.

End Tensor.

Import Tensor.

(** ** ModelSamplingDiscreteFlow *)
Module ModelSamplingDiscreteFlow.

Record t := mk { shift : Q }.

(** [def timestep(self, sigma): return sigma * 1000] *)
Definition timestep (self : t) (sigma : Q) : Q := sigma * 1000.

(** [def sigma(self, timestep)]: the scalar (per-element) map. *)
Definition sigma (self : t) (timestep : Q) : Q :=
  let timestep := timestep / 1000 in
  if Qeq_bool (shift self) 1 then timestep
  else shift self * timestep / (1 + (shift self - 1) * timestep).

(** The [sigmas] buffer of [__init__]:
    [self.sigma(torch.arange(1, timesteps + 1, 1))] with [timesteps = 1000]. *)
Definition sigmas (self : t) : list Q :=
  map (fun n => sigma self (inject_Z (Z.of_nat n))) (seq 1 1000).

(** [sigma_min = self.sigmas[0]], [sigma_max = self.sigmas[-1]]. *)
Definition sigma_min (self : t) : Q := nth 0 (sigmas self) 0.
Definition sigma_max (self : t) : Q := last (sigmas self) 0.

(** [calculate_denoised]: [sigma] has one entry per batch element and is
    viewed as [(B, 1, ..., 1)]; the result is
    [model_input - model_output * sigma]. *)
Definition calculate_denoised (sigma : list Q) (model_output model_input : Batch) : Batch :=
  bsub model_input (zipWith (fun o s => map (fun v => v * s) o) model_output sigma).

(** [noise_scaling(sigma, noise, latent_image)] for a scalar sigma:
    [sigma * noise + (1.0 - sigma) * latent_image]. *)
Definition noise_scaling (sigma : Q) (noise latent_image : Batch) : Batch :=
  badd (map (map (fun v => sigma * v)) noise)
       (map (map (fun v => (1 - sigma) * v)) latent_image).

End ModelSamplingDiscreteFlow.

(** ** SD3LatentFormat *)
Module SD3LatentFormat.

Definition scale_factor : Q := 15305 # 10000.
Definition shift_factor : Q := 609 # 10000.

(** [(latent - self.shift_factor) * self.scale_factor] *)
Definition process_in (latent : Batch) : Batch :=
  map (map (fun v => (v - shift_factor) * scale_factor)) latent.

(** [(latent / self.scale_factor) + self.shift_factor] *)
Definition process_out (latent : Batch) : Batch :=
  map (map (fun v => v / scale_factor + shift_factor)) latent.

End SD3LatentFormat.

(** ** The denoiser contract and the guidance wrappers *)
Module Guidance.

(** One conditioning bundle: the [c_crossattn] and [y] entries, one row
    per batch element. *)
Record Cond {Ctx Y : Type} := mkCond { c_crossattn : list Ctx; y : list Y }.
Arguments Cond : clear implicits.
Arguments mkCond {Ctx Y}.

(** A recorded call of [self.model.apply_model]. *)
Record Call {Ctx Y : Type} := mkCall {
  call_x : Batch; call_timestep : list Q;
  call_c_crossattn : list Ctx; call_y : list Y; call_skip_layers : list nat }.
Arguments Call : clear implicits.
Arguments mkCall {Ctx Y}.

(** State of a [SkipLayerCFGDenoiser] object. *)
Record SLG := mkSLG {
  steps : Z; slg : Q; skip_start : Q; skip_end : Q;
  skip_layers : list nat; step : Z }.

(** [SkipLayerCFGDenoiser.__init__]: the counter starts at 0. *)
Definition slg_init (steps0 : Z) (scale start end_ : Q) (layers : list nat) : SLG :=
  mkSLG steps0 scale start end_ layers 0.

Definition Qlt_bool (a b : Q) : bool := negb (Qle_bool b a).

(** [tensor.chunk(2)] along the batch dimension. *)
Definition chunk2 {A} (l : list A) : list A * list A :=
  let half := Nat.div (length l + 1) 2 in (firstn half l, skipn half l).

Section Wrappers.
Context {Ctx Y : Type}.

(** The denoiser [BaseModel.apply_model] acts on each batch element
    independently (the batching of cond and uncond is a throughput
    optimisation, spec section 5): [den x sigma ctx y skip_layers]. *)
Variable den : Sample -> Q -> Ctx -> Y -> list nat -> Sample.

Fixpoint apply_model (x : Batch) (sigma : list Q) (c : list Ctx) (yv : list Y)
    (skip : list nat) : Batch :=
  match x, sigma, c, yv with
  | x0 :: x', s0 :: s', c0 :: c', y0 :: y' =>
      den x0 s0 c0 y0 skip :: apply_model x' s' c' y' skip
  | _, _, _, _ => []
  end.

(** [CFGDenoiser.forward] (kwargs empty, as called by the samplers). *)
Definition cfg_forward (x : Batch) (timestep : list Q) (cond uncond : Cond Ctx Y)
    (cond_scale : Q) : Batch :=
  let batched := apply_model (x ++ x) (timestep ++ timestep)
                   (c_crossattn cond ++ c_crossattn uncond) (y cond ++ y uncond) [] in
  let '(pos_out, neg_out) := chunk2 batched in
  let scaled := badd neg_out (bmul_s (bsub pos_out neg_out) (5 # 2)) in
  scaled.

(** The skip-layer gate of [SkipLayerCFGDenoiser.forward]. *)
Definition slg_gate (self : SLG) : bool :=
  Qlt_bool 0 (slg self)
  && Qlt_bool (skip_start self * inject_Z (steps self)) (inject_Z (step self))
  && Qlt_bool (inject_Z (step self)) (skip_end self * inject_Z (steps self)).

(** The gate read as a proposition on the exact values. *)
Definition slg_window (self : SLG) : Prop :=
  0 < slg self /\
  skip_start self * inject_Z (steps self) < inject_Z (step self) /\
  inject_Z (step self) < skip_end self * inject_Z (steps self).

Definition incr_step (self : SLG) : SLG :=
  mkSLG (steps self) (slg self) (skip_start self) (skip_end self)
        (skip_layers self) (step self + 1).

(** [SkipLayerCFGDenoiser.forward]: returns the result, the updated object
    and the list of denoiser calls issued, in order. *)
Definition slg_forward (self : SLG) (x : Batch) (timestep : list Q)
    (cond uncond : Cond Ctx Y) (cond_scale : Q)
    : Batch * SLG * list (Call Ctx Y) :=
  let bx := x ++ x in
  let bt := timestep ++ timestep in
  let bc := c_crossattn cond ++ c_crossattn uncond in
  let byv := y cond ++ y uncond in
  let batched := apply_model bx bt bc byv [] in
  let call1 := mkCall bx bt bc byv [] in
  let '(pos_out, neg_out) := chunk2 batched in
  let scaled := badd neg_out (bmul_s (bsub pos_out neg_out) cond_scale) in
  if slg_gate self then
    let skip_layer_out :=
      apply_model x timestep (c_crossattn cond) (y cond) (skip_layers self) in
    let call2 := mkCall x timestep (c_crossattn cond) (y cond) (skip_layers self) in
    let scaled := badd scaled (bmul_s (bsub pos_out skip_layer_out) (slg self)) in
    (scaled, incr_step self, [call1; call2])
  else (scaled, incr_step self, [call1]).

(** The denoiser outputs under one conditioning bundle. *)
Definition denoise_under (x : Batch) (timestep : list Q) (c : Cond Ctx Y) : Batch :=
  apply_model x timestep (c_crossattn c) (y c) [].

(** The guided result as the spec words it: [neg + (pos - neg) * cond_scale]. *)
Definition cfg_spec (x : Batch) (timestep : list Q) (cond uncond : Cond Ctx Y)
    (cond_scale : Q) : Batch :=
  let pos_out := denoise_under x timestep cond in
  let neg_out := denoise_under x timestep uncond in
  badd neg_out (bmul_s (bsub pos_out neg_out) cond_scale).

(** Well-formed inputs: one timestep and one conditioning row per sample. *)
Definition wf_inputs (x : Batch) (timestep : list Q) (cond uncond : Cond Ctx Y) : Prop :=
  length timestep = length x /\
  length (c_crossattn cond) = length x /\ length (y cond) = length x /\
  length (c_crossattn uncond) = length x /\ length (y uncond) = length x.

(** A sequence of [forward] calls on one wrapper object, one per
    integration step, with the inputs [(x, timestep)] of each step; returns
    the outputs, the final object and the number of denoiser calls made by
    each [forward]. *)
Fixpoint slg_run (self : SLG) (inputs : list (Batch * list Q)) (cond uncond : Cond Ctx Y)
    (cond_scale : Q) : list Batch * SLG * list nat :=
  match inputs with
  | [] => ([], self, [])
  | (x, timestep) :: rest =>
      let '(out, self', calls) := slg_forward self x timestep cond uncond cond_scale in
      let '(outs, self'', counts) := slg_run self' rest cond uncond cond_scale in
      (out :: outs, self'', length calls :: counts)
  end.

End Wrappers.

(** The same configuration with the counter set to [n]. *)
Definition at_step (self : SLG) (n : Z) : SLG :=
  mkSLG (steps self) (slg self) (skip_start self) (skip_end self) (skip_layers self) n.

End Guidance.

(** ** [BaseModel.apply_model] without a control signal *)
Module BaseModel.

(** [timestep = self.model_sampling.timestep(sigma)], the backbone
    [self.diffusion_model] on each batch element, then
    [self.model_sampling.calculate_denoised(sigma, model_output, x)]. *)
Definition apply_model {Ctx Y : Type}
    (diffusion_model : Sample -> Q -> Ctx -> Y -> list nat -> Sample)
    (model_sampling : ModelSamplingDiscreteFlow.t)
    (x : Batch) (sigma : list Q) (c_crossattn : list Ctx) (yv : list Y)
    (skip_layers : list nat) : Batch :=
  let timestep := map (ModelSamplingDiscreteFlow.timestep model_sampling) sigma in
  let model_output :=
    Guidance.apply_model diffusion_model x timestep c_crossattn yv skip_layers in
  ModelSamplingDiscreteFlow.calculate_denoised sigma model_output x.

End BaseModel.

(** ** Samplers *)
Module Samplers.

(** The guided denoiser handed to the samplers: [model(x, sigma * s_in)];
    the conditioning bundles travel in [extra_args] and are fixed for the
    run, so they are part of the closure. *)
Definition GuidedModel := Batch -> list Q -> Batch.

(** [c * a] for a scalar on the left. *)
Definition smul_b (c : Q) (a : Batch) : Batch := map (map (fun v => c * v)) a.

(** [sigma * s_in] with [s_in = x.new_ones([x.shape[0]])]. *)
Definition sigma_s_in (x : Batch) (sigma : Q) : list Q := map (fun _ => sigma * 1) x.

(** [to_d(x, sigma, denoised) = (x - denoised) / append_dims(sigma, x.ndim)] *)
Definition to_d (x : Batch) (sigma : Q) (denoised : Batch) : Batch :=
  bdiv_s (bsub x denoised) sigma.

(** Body of the loop of [sample_euler] at index [i]. *)
Definition euler_body (model : GuidedModel) (sigmas : list Q) (i : nat) (x : Batch)
  : Batch :=
  let sigma_hat := nth i sigmas 0 in
  let denoised := model x (sigma_s_in x sigma_hat) in
  let d := to_d x sigma_hat denoised in
  let dt := nth (S i) sigmas 0 - sigma_hat in
  badd x (bmul_s d dt).

(** The value of [x] after [k] iterations of [for i in range(len(sigmas) - 1)]. *)
Fixpoint euler_iter (model : GuidedModel) (sigmas : list Q) (x : Batch) (k : nat)
  : Batch :=
  match k with
  | O => x
  | S k' => euler_body model sigmas k' (euler_iter model sigmas x k')
  end.

Definition sample_euler (model : GuidedModel) (x : Batch) (sigmas : list Q) : Batch :=
  euler_iter model sigmas x (length sigmas - 1).

(** The spec's step: [denoised = guided_denoise(x, sigma[i])],
    [d = (x - denoised)/sigma[i]], [x = x + d * (sigma[i+1] - sigma[i])]. *)
Definition euler_spec_step (model : GuidedModel) (sigmas : list Q) (i : nat) (x : Batch)
  : Batch :=
  let denoised := model x (sigma_s_in x (nth i sigmas 0)) in
  let d := bdiv_s (bsub x denoised) (nth i sigmas 0) in
  badd x (bmul_s d (nth (i + 1) sigmas 0 - nth i sigmas 0)).

(** Which update of [sample_dpmpp_2m] a step took. *)
Inductive Branch := FirstOrder | SecondOrder (r : Q).

Record DPMState := mkDPM {
  dpm_x : Batch; old_denoised : option Batch; branches : list Branch }.

Section DPM.
(** [Tensor.exp], [Tensor.log] and [Tensor.expm1] on 0-d tensors. *)
Variables (exp log expm1 : Q -> Q).

Definition sigma_fn (t : Q) : Q := exp (- t).
Definition t_fn (sigma : Q) : Q := - log sigma.

(** Body of the loop of [sample_dpmpp_2m] at index [i]; the python
    condition [old_denoised is None or sigmas[i + 1] == 0] is evaluated
    left to right. *)
Definition dpm_body (model : GuidedModel) (sigmas : list Q) (i : nat) (st : DPMState)
  : DPMState :=
  let x := dpm_x st in
  let denoised := model x (sigma_s_in x (nth i sigmas 0)) in
  let t := t_fn (nth i sigmas 0) in
  let t_next := t_fn (nth (S i) sigmas 0) in
  let h := t_next - t in
  let first :=
    mkDPM (bsub (smul_b (sigma_fn t_next / sigma_fn t) x) (smul_b (expm1 (- h)) denoised))
          (Some denoised) (branches st ++ [FirstOrder]) in
  match old_denoised st with
  | None => first
  | Some old =>
      if Qeq_bool (nth (S i) sigmas 0) 0 then first
      else
        let h_last := t - t_fn (nth (i - 1) sigmas 0) in
        let r := h_last / h in
        let denoised_d :=
          bsub (smul_b (1 + 1 / (2 * r)) denoised) (smul_b (1 / (2 * r)) old) in
        mkDPM (bsub (smul_b (sigma_fn t_next / sigma_fn t) x)
                    (smul_b (expm1 (- h)) denoised_d))
              (Some denoised) (branches st ++ [SecondOrder r])
  end.

Fixpoint dpm_iter (model : GuidedModel) (sigmas : list Q) (x : Batch) (k : nat)
  : DPMState :=
  match k with
  | O => mkDPM x None []
  | S k' => dpm_body model sigmas k' (dpm_iter model sigmas x k')
  end.

Definition sample_dpmpp_2m (model : GuidedModel) (x : Batch) (sigmas : list Q) : Batch :=
  dpm_x (dpm_iter model sigmas x (length sigmas - 1)).

(** The first-order exponential-integrator update of the spec. *)
Definition first_order_update (model : GuidedModel) (sigmas : list Q) (i : nat)
    (x : Batch) : Batch :=
  let h := t_fn (nth (i + 1) sigmas 0) - t_fn (nth i sigmas 0) in
  bsub (smul_b (sigma_fn (t_fn (nth (i + 1) sigmas 0)) / sigma_fn (t_fn (nth i sigmas 0))) x)
       (smul_b (expm1 (- h)) (model x (sigma_s_in x (nth i sigmas 0)))).

End DPM.

End Samplers.

(** ** [SD3LatentFormat.decode_latent_to_preview] *)
Module Preview.

(** A latent as torch holds it: batch x channels x height x width. *)
Definition Latent := list (list (list (list Q))).

Definition factors : list (list Q) := [
  [-645 # 10000; 177 # 10000; 1052 # 10000];
  [28 # 10000; 312 # 10000; 650 # 10000];
  [1848 # 10000; 762 # 10000; 360 # 10000];
  [944 # 10000; 360 # 10000; 889 # 10000];
  [897 # 10000; 506 # 10000; -364 # 10000];
  [-20 # 10000; 1203 # 10000; 284 # 10000];
  [855 # 10000; 118 # 10000; 283 # 10000];
  [-539 # 10000; 658 # 10000; 1047 # 10000];
  [-57 # 10000; 116 # 10000; 700 # 10000];
  [-412 # 10000; 281 # 10000; -39 # 10000];
  [1106 # 10000; 1171 # 10000; 1220 # 10000];
  [-248 # 10000; 682 # 10000; -481 # 10000];
  [815 # 10000; 846 # 10000; 1207 # 10000];
  [-120 # 10000; -55 # 10000; -867 # 10000];
  [-749 # 10000; -634 # 10000; -456 # 10000];
  [-1418 # 10000; -1457 # 10000; -1259 # 10000]].

(** [.permute(1, 2, 0)] of a channels x height x width tensor. *)
Definition permute120 (a : list (list (list Q))) : list (list (list Q)) :=
  match a with
  | [] => []
  | ch0 :: _ =>
      let hgt := length ch0 in
      let wdt := match ch0 with [] => 0%nat | row :: _ => length row end in
      map (fun h => map (fun w => map (fun ch => nth w (nth h ch []) 0) a)
                        (seq 0 wdt))
          (seq 0 hgt)
  end.

(** A length-16 row vector times [factors]. *)
Definition vecmat (v : list Q) : list Q :=
  map (fun j => fold_left Qplus (Tensor.zipWith (fun vc row => vc * nth j row 0) v factors) 0)
      (seq 0 3).

(** [.clamp(0, 1)] *)
Definition clamp01 (u : Q) : Q :=
  if negb (Qle_bool 0 u) then 0 else if Qle_bool u 1 then u else 1.

(** [((v + 1) / 2).clamp(0, 1).mul(0xFF).byte()]: the value is in
    [0, 255] after the clamp, where the float to uint8 cast truncates. *)
Definition to_ubyte (v : Q) : Z := Qfloor (clamp01 ((v + 1) / 2) * 255).

(** [decode_latent_to_preview x0]: [None] where torch raises ([x0[0]] of
    an empty batch, or a channel count other than 16 in the matmul). *)
Definition decode_latent_to_preview (x0 : Latent) : option (list (list (list Z))) :=
  match x0 with
  | [] => None
  | a :: _ =>
      if Nat.eqb (length a) 16 then
        let latent_image := map (map vecmat) (permute120 a) in
        Some (map (map (map to_ubyte)) latent_image)
      else None
  end.

End Preview.

(** ** [SDVAE.encode] around an opaque encoder network *)
Module SDVAE.

(** [torch.clamp(v, lo, hi)] = [min(max(v, lo), hi)]. *)
Definition clamp (lo hi v : Q) : Q :=
  let m := if Qle_bool lo v then v else lo in
  if Qle_bool m hi then m else hi.

(** [encode(image)] on a batch: [self.encoder] gives [2C] channels per
    sample (each flattened over height x width), [torch.chunk(hidden, 2,
    dim=1)] splits them into [mean] and [logvar], and the result is
    [mean + exp(0.5 * clamp(logvar, -30, 20)) * noise] with [noise] the
    draw of [torch.randn_like(mean)]. *)
Definition encode {Img : Type} (exp : Q -> Q) (encoder : Img -> list (list Q))
    (image : list Img) (noise : list (list (list Q))) : list (list (list Q)) :=
  Tensor.zipWith
    (fun img nz =>
       let hidden := encoder img in
       let '(mean, logvar) := Guidance.chunk2 hidden in
       let logvar := map (map (clamp (-30) 20)) logvar in
       let std := map (map (fun v => exp ((1 # 2) * v))) logvar in
       Tensor.zipWith (Tensor.zipWith Qplus) mean
         (Tensor.zipWith (Tensor.zipWith Qmult) std nz))
    image noise.

End SDVAE.

(** ** The VAE networks at the level of tensor shapes

    Each module maps the shape (channels, height, width) of one sample to
    the shape of its output, or [None] where torch raises; the learned
    weights do not change shapes. *)
Module VAEShapes.
Local Open Scope nat_scope.

Record Shape := mkShape { sc : nat; sh : nat; sw : nat }.

Definition shape_eqb (a b : Shape) : bool :=
  Nat.eqb (sc a) (sc b) && Nat.eqb (sh a) (sh b) && Nat.eqb (sw a) (sw b).

Notation "'let?' x := e1 'in' e2" :=
  (match e1 with Some x => e2 | None => None end)
  (at level 200, x name, e1 at level 100, e2 at level 200).

(** One spatial dimension of [Conv2d(kernel_size=k, stride=s, padding=p)]:
    [floor((n + 2p - k) / s) + 1]; an input smaller than the kernel raises. *)
Definition conv_dim (n k s p : nat) : option nat :=
  if Nat.leb k (n + 2 * p) then Some ((n + 2 * p - k) / s + 1) else None.

(** [torch.nn.Conv2d(cin, cout, kernel_size=k, stride=s, padding=p)]. *)
Definition conv2d (cin cout k s p : nat) (x : Shape) : option Shape :=
  if Nat.eqb (sc x) cin then
    match conv_dim (sh x) k s p, conv_dim (sw x) k s p with
    | Some h, Some w => Some (mkShape cout h w)
    | _, _ => None
    end
  else None.

(** [Normalize(c)] = [GroupNorm(num_groups=32, num_channels=c)]: [c] must
    be the channel count and a multiple of 32. *)
Definition normalize (c : nat) (x : Shape) : option Shape :=
  if Nat.eqb (sc x) c && Nat.eqb (c mod 32) 0 then Some x else None.

(** [ResnetBlock(in_channels=cin, out_channels=cout).forward]; the final
    [x + hidden] is taken on equal shapes (broadcasting is not modelled). *)
Definition resnet (cin cout : nat) (x : Shape) : option Shape :=
  let? hidden := normalize cin x in
  let? hidden := conv2d cin cout 3 1 1 hidden in
  let? hidden := normalize cout hidden in
  let? hidden := conv2d cout cout 3 1 1 hidden in
  let? x := (if negb (Nat.eqb cin cout) then conv2d cin cout 1 1 0 x else Some x) in
  if shape_eqb x hidden then Some hidden else None.

(** [AttnBlock(c).forward]: [q], [k], [v] and [proj_out] are 1x1
    convolutions; attention keeps the shape of [q]. *)
Definition attn (c : nat) (x : Shape) : option Shape :=
  let? hidden := normalize c x in
  let? q := conv2d c c 1 1 0 hidden in
  let? k := conv2d c c 1 1 0 hidden in
  let? v := conv2d c c 1 1 0 hidden in
  if shape_eqb k v then
    let? hidden := conv2d c c 1 1 0 q in
    if shape_eqb x hidden then Some hidden else None
  else None.

(** [Downsample(c).forward]: pad right and bottom by one, then a 3x3
    convolution of stride 2 without padding. *)
Definition downsample (c : nat) (x : Shape) : option Shape :=
  conv2d c c 3 2 0 (mkShape (sc x) (sh x + 1) (sw x + 1)).

(** [Upsample(c).forward]: nearest interpolation by 2, then a 3x3
    convolution of padding 1. *)
Definition upsample (c : nat) (x : Shape) : option Shape :=
  conv2d c c 3 1 1 (mkShape (sc x) (2 * sh x) (2 * sw x)).

(** [n] ResnetBlocks, the first from [cin] to [cout], the others
    [cout] to [cout] (the [block_in = block_out] update). *)
Fixpoint res_chain (n cin cout : nat) (x : Shape) : option Shape :=
  match n with
  | O => Some x
  | S n' => let? x := resnet cin cout x in res_chain n' cout cout x
  end.

(** The downsampling loop of [VAEEncoder.forward] from level [i] on
    ([fuel] levels left), with [in_ch_mult = (1,) + ch_mult]. *)
Fixpoint enc_down (ch : nat) (ch_mult : list nat) (nrb i fuel : nat) (x : Shape)
  : option Shape :=
  match fuel with
  | O => Some x
  | S f =>
      let block_in := ch * nth i (1%nat :: ch_mult) 0 in
      let block_out := ch * nth i ch_mult 0 in
      let? x := res_chain nrb block_in block_out x in
      let block_in := if Nat.eqb nrb 0 then block_in else block_out in
      let? x := (if Nat.eqb i (length ch_mult - 1) then Some x
                 else downsample block_in x) in
      enc_down ch ch_mult nrb (S i) f x
  end.

(** [block_in] after the construction loop of [VAEEncoder]. *)
Definition enc_block_in (ch : nat) (ch_mult : list nat) (nrb : nat) : nat :=
  let i := (length ch_mult - 1)%nat in
  if Nat.eqb nrb 0 then ch * nth i (1%nat :: ch_mult) 0 else ch * nth i ch_mult 0.

(** [VAEEncoder(ch, ch_mult, num_res_blocks, in_channels, z_channels).forward]. *)
Definition encoder (ch : nat) (ch_mult : list nat) (nrb in_channels z_channels : nat)
    (x : Shape) : option Shape :=
  let? h := conv2d in_channels ch 3 1 1 x in
  let? h := enc_down ch ch_mult nrb 0 (length ch_mult) h in
  let block_in := enc_block_in ch ch_mult nrb in
  let? h := resnet block_in block_in h in
  let? h := attn block_in h in
  let? h := resnet block_in block_in h in
  let? h := normalize block_in h in
  conv2d block_in (2 * z_channels) 3 1 1 h.

(** The upsampling loop of [VAEDecoder.forward] over the levels
    [k - 1, ..., 0]; returns the shape and the final [block_in]. *)
Fixpoint dec_up (ch : nat) (ch_mult : list nat) (nrb k block_in : nat) (x : Shape)
  : option (Shape * nat) :=
  match k with
  | O => Some (x, block_in)
  | S i =>
      let block_out := ch * nth i ch_mult 0 in
      let? x := res_chain (S nrb) block_in block_out x in
      let? x := (if Nat.eqb i 0 then Some x else upsample block_out x) in
      dec_up ch ch_mult nrb i block_out x
  end.

(** [VAEDecoder(ch, out_ch, ch_mult, num_res_blocks, z_channels).forward]. *)
Definition decoder (ch out_ch : nat) (ch_mult : list nat) (nrb z_channels : nat)
    (z : Shape) : option Shape :=
  let block_in := ch * nth (length ch_mult - 1) ch_mult 0 in
  let? h := conv2d z_channels block_in 3 1 1 z in
  let? h := resnet block_in block_in h in
  let? h := attn block_in h in
  let? h := resnet block_in block_in h in
  let? hb := dec_up ch ch_mult nrb (length ch_mult) block_in h in
  let '(h, block_in) := hb in
  let? h := normalize block_in h in
  conv2d block_in out_ch 3 1 1 h.

(** [SDVAE()]: the default configurations. *)
Definition sd_encoder : Shape -> option Shape := encoder 128 [1; 2; 4; 4]%nat 2 3 16.
Definition sd_decoder : Shape -> option Shape := decoder 128 3 [1; 2; 4; 4]%nat 2 16.

(** [torch.chunk(hidden, 2, dim=1)]: the first chunk's shape. *)
Definition chunk_mean (x : Shape) : Shape := mkShape ((sc x + 1) / 2) (sh x) (sw x).

End VAEShapes.

(** ** Concrete inputs used to exercise the statements *)
Module Concrete.
Import Guidance.

(** A one-element denoiser: it returns the context value, lowered by the
    number of skipped layers. *)
Definition den_c (x : Sample) (sigma : Q) (c : Q) (yv : unit) (sk : list nat) : Sample :=
  [c - inject_Z (Z.of_nat (length sk))].

Definition x0 : Batch := [[0]].
Definition t0 : list Q := [1].
Definition cond1 : Cond Q unit := mkCond [1] [tt].
Definition uncond1 : Cond Q unit := mkCond [0] [tt].

(** 10 steps, scale 3, window (0.01 * 10, 0.2 * 10), at step 1. *)
Definition st_open : SLG := mkSLG 10 3 (1 # 100) (2 # 10) [7; 8; 9]%nat 1.
(** Same window, scale 0. *)
Definition st_zero : SLG := mkSLG 10 0 (1 # 100) (2 # 10) [7; 8; 9]%nat 1.
(** Empty window [start == end]. *)
Definition st_empty : SLG := mkSLG 10 3 (1 # 10) (1 # 10) [7%nat] 1.

(** Inverted window [end < start], at step 5. *)
Definition st_inv : SLG := mkSLG 10 3 (1 # 2) (1 # 10) [7%nat] 5.

(** The denoiser returning identically 0. *)
Definition zero_model : Samplers.GuidedModel := fun x _ => map (map (fun _ => 0)) x.

(** A 16-channel, 1 x 1 latent filled with [v]. *)
Definition lat16 (v : Q) : list (list (list Q)) := repeat [[v]] 16.

End Concrete.

(** * Properties *)

From Stdlib Require Import Lqa.

Module ScheduleProofs.
Import ModelSamplingDiscreteFlow.

Lemma sigma_shift1 (self : t) (ts : Q) :
  shift self == 1 -> sigma self ts = ts / 1000.
Proof.
  intro H. unfold sigma. apply Qeq_bool_iff in H. now rewrite H.
Qed.

Lemma sigma_shift_other (self : t) (ts : Q) :
  ~ shift self == 1 ->
  sigma self ts = shift self * (ts / 1000) / (1 + (shift self - 1) * (ts / 1000)).
Proof.
  intro H. unfold sigma. destruct (Qeq_bool (shift self) 1) eqn:E.
  - apply Qeq_bool_iff in E. contradiction.
  - reflexivity.
Qed.

(** C7: [sigma(t)] is [t/1000] when [shift = 1.0], and
    [shift*(t/1000) / (1 + (shift-1)*(t/1000))] for any other shift. *)
Theorem sigma_def_cases (self : t) (ts : Q) :
  (shift self == 1 -> sigma self ts = ts / 1000) /\
  (~ shift self == 1 ->
   sigma self ts = shift self * (ts / 1000) / (1 + (shift self - 1) * (ts / 1000))).
Proof.
  split; [apply sigma_shift1 | apply sigma_shift_other].
Qed.

Lemma roundtrip_inexact (self : t) (s : Q) :
  ~ shift self == 1 -> 0 < s -> s < 1 -> ~ sigma self (timestep self s) == s.
Proof.
  intros Hs H0 H1 Heq.
  rewrite sigma_shift_other in Heq by exact Hs.
  unfold timestep in Heq.
  assert (Hu : s * 1000 / 1000 == s) by (field; discriminate).
  rewrite Hu in Heq.
  set (D := 1 + (shift self - 1) * s) in Heq.
  destruct (Qeq_dec D 0) as [HD | HD].
  - rewrite HD in Heq. unfold Qdiv in Heq. change (/ 0) with 0 in Heq.
    rewrite Qmult_0_r in Heq. lra.
  - assert (Hm : shift self * s == s * D).
    { rewrite <- Heq at 2. field. exact HD. }
    unfold D in Hm.
    assert (Hz : (shift self - 1) * (s * (1 - s)) == 0) by lra.
    apply Qmult_integral in Hz. destruct Hz as [Hz | Hz].
    + apply Hs. lra.
    + apply Qmult_integral in Hz. destruct Hz; lra.
Qed.

(** C8: [timestep(s) = s * 1000]; with [shift = 1.0] the round trip
    [sigma(timestep(s))] gives back [s] (for every [s], in particular on
    (0, 1]); with any other shift it is not exact on (0, 1). *)
Theorem timestep_roundtrip (self : t) (s : Q) :
  timestep self s = s * 1000 /\
  (shift self == 1 -> sigma self (timestep self s) == s) /\
  (~ shift self == 1 -> 0 < s -> s < 1 -> ~ sigma self (timestep self s) == s).
Proof.
  split; [reflexivity | split].
  - intro H. rewrite sigma_shift1 by exact H. unfold timestep. field.
  - apply roundtrip_inexact.
Qed.

End ScheduleProofs.

Module LatentProofs.
Import SD3LatentFormat.

Lemma process_roundtrip_elem (v : Q) :
  (v - shift_factor) * scale_factor / scale_factor + shift_factor == v.
Proof. unfold scale_factor, shift_factor. field. Qed.

(** C9: [process_out(process_in(x)) == x] for every latent [x], with
    [scale_factor = 1.5305] and [shift_factor = 0.0609] (exact over the
    reals). *)
Theorem process_out_in (x : Batch) :
  beq (process_out (process_in x)) x.
Proof.
  unfold beq, process_out, process_in. rewrite map_map.
  induction x as [|s x IH]; simpl; constructor; [|exact IH].
  rewrite map_map. induction s as [|v s IHs]; simpl; constructor; [|exact IHs].
  apply process_roundtrip_elem.
Qed.

End LatentProofs.

Module GuidanceProofs.
Import Guidance.

Section Lemmas.
Context {Ctx Y : Type}.
Variable den : Sample -> Q -> Ctx -> Y -> list nat -> Sample.

Lemma apply_model_app (x1 x2 : Batch) (t1 t2 : list Q) (c1 c2 : list Ctx)
    (y1 y2 : list Y) (sk : list nat) :
  length t1 = length x1 -> length c1 = length x1 -> length y1 = length x1 ->
  apply_model den (x1 ++ x2) (t1 ++ t2) (c1 ++ c2) (y1 ++ y2) sk =
  apply_model den x1 t1 c1 y1 sk ++ apply_model den x2 t2 c2 y2 sk.
Proof.
  revert t1 c1 y1.
  induction x1 as [|a x1 IH]; intros [|b t1] [|c c1] [|d y1] Ht Hc Hy;
    simpl in *; try discriminate; try reflexivity.
  f_equal. apply IH; lia.
Qed.

Lemma apply_model_length (x : Batch) (t : list Q) (c : list Ctx) (yv : list Y)
    (sk : list nat) :
  length t = length x -> length c = length x -> length yv = length x ->
  length (apply_model den x t c yv sk) = length x.
Proof.
  revert t c yv.
  induction x as [|a x IH]; intros [|b t] [|e c] [|d yv] Ht Hc Hy;
    simpl in *; try discriminate; try reflexivity.
  f_equal. apply IH; lia.
Qed.

Lemma chunk2_app {A} (a b : list A) :
  length a = length b -> chunk2 (a ++ b) = (a, b).
Proof.
  intro H. unfold chunk2. rewrite length_app, <- H.
  replace (Nat.div (length a + length a + 1) 2) with (length a).
  - rewrite firstn_app, skipn_app, Nat.sub_diag, firstn_all, skipn_all.
    simpl. rewrite app_nil_r. reflexivity.
  - apply Nat.div_unique with (r := 1%nat); lia.
Qed.

(** Splitting the batched evaluation gives the outputs under [cond] and
    under [uncond]. *)
Lemma batched_split (x : Batch) (t : list Q) (cond uncond : Cond Ctx Y) :
  wf_inputs x t cond uncond ->
  chunk2 (apply_model den (x ++ x) (t ++ t)
            (c_crossattn cond ++ c_crossattn uncond) (y cond ++ y uncond) []) =
  (denoise_under den x t cond, denoise_under den x t uncond).
Proof.
  intros (Ht & Hc & Hy & Hc' & Hy').
  rewrite apply_model_app by assumption.
  apply chunk2_app. unfold denoise_under.
  rewrite !apply_model_length by assumption. reflexivity.
Qed.

(** What [CFGDenoiser.forward] computes: the guidance scale 2.5 in place of
    [cond_scale]. *)
Lemma cfg_forward_scale (x : Batch) (t : list Q) (cond uncond : Cond Ctx Y)
    (cond_scale : Q) :
  wf_inputs x t cond uncond ->
  cfg_forward den x t cond uncond cond_scale = cfg_spec den x t cond uncond (5 # 2).
Proof.
  intro W. unfold cfg_forward, cfg_spec. rewrite batched_split by exact W.
  reflexivity.
Qed.

Lemma Qlt_bool_iff (a b : Q) : Qlt_bool a b = true <-> a < b.
Proof.
  unfold Qlt_bool. rewrite negb_true_iff. split.
  - intro H. apply Qnot_le_lt. intro H'. apply Qle_bool_iff in H'. congruence.
  - intro H. destruct (Qle_bool b a) eqn:E; [|reflexivity].
    apply Qle_bool_iff in E. exfalso. apply (Qlt_not_le _ _ H E).
Qed.

Lemma slg_gate_iff (self : SLG) : slg_gate self = true <-> slg_window self.
Proof.
  unfold slg_gate, slg_window. rewrite !andb_true_iff, !Qlt_bool_iff. tauto.
Qed.

Lemma slg_forward_open (self : SLG) (x : Batch) (t : list Q)
    (cond uncond : Cond Ctx Y) (cond_scale : Q) :
  wf_inputs x t cond uncond -> slg_window self ->
  slg_forward den self x t cond uncond cond_scale =
  (badd (cfg_spec den x t cond uncond cond_scale)
        (bmul_s (bsub (denoise_under den x t cond)
                      (apply_model den x t (c_crossattn cond) (y cond) (skip_layers self)))
                (slg self)),
   incr_step self,
   [mkCall (x ++ x) (t ++ t) (c_crossattn cond ++ c_crossattn uncond)
           (y cond ++ y uncond) [];
    mkCall x t (c_crossattn cond) (y cond) (skip_layers self)]).
Proof.
  intros W G. apply slg_gate_iff in G.
  unfold slg_forward. rewrite batched_split by exact W. rewrite G. reflexivity.
Qed.

Lemma slg_forward_closed (self : SLG) (x : Batch) (t : list Q)
    (cond uncond : Cond Ctx Y) (cond_scale : Q) :
  wf_inputs x t cond uncond -> ~ slg_window self ->
  slg_forward den self x t cond uncond cond_scale =
  (cfg_spec den x t cond uncond cond_scale, incr_step self,
   [mkCall (x ++ x) (t ++ t) (c_crossattn cond ++ c_crossattn uncond)
           (y cond ++ y uncond) []]).
Proof.
  intros W G.
  destruct (slg_gate self) eqn:E.
  - apply slg_gate_iff in E. contradiction.
  - unfold slg_forward. rewrite batched_split by exact W. rewrite E. reflexivity.
Qed.

(** C2: the extra skip-layer evaluation runs exactly when [slg > 0] and
    [skip_start*steps < step < skip_end*steps]; then the result is the CFG
    result plus [(pos_out - skip_layer_out) * slg], and otherwise the CFG
    result alone, with the batched call as the only denoiser call. *)
Theorem slg_forward_gate (self : SLG) (x : Batch) (t : list Q)
    (cond uncond : Cond Ctx Y) (cond_scale : Q) :
  wf_inputs x t cond uncond ->
  (slg_window self ->
   slg_forward den self x t cond uncond cond_scale =
   (badd (cfg_spec den x t cond uncond cond_scale)
         (bmul_s (bsub (denoise_under den x t cond)
                       (apply_model den x t (c_crossattn cond) (y cond) (skip_layers self)))
                 (slg self)),
    incr_step self,
    [mkCall (x ++ x) (t ++ t) (c_crossattn cond ++ c_crossattn uncond)
            (y cond ++ y uncond) [];
     mkCall x t (c_crossattn cond) (y cond) (skip_layers self)])) /\
  (~ slg_window self ->
   slg_forward den self x t cond uncond cond_scale =
   (cfg_spec den x t cond uncond cond_scale, incr_step self,
    [mkCall (x ++ x) (t ++ t) (c_crossattn cond ++ c_crossattn uncond)
            (y cond ++ y uncond) []])).
Proof.
  intro W. split; intro G.
  - apply slg_forward_open; assumption.
  - apply slg_forward_closed; assumption.
Qed.

(** C3: with [scale = 0] or [skip_start == skip_end], [forward] issues only
    the batched cond/uncond call and returns the plain CFG result
    [neg_out + (pos_out - neg_out) * cond_scale], whatever the step. *)
Theorem slg_degenerates_to_cfg (self : SLG) (x : Batch) (t : list Q)
    (cond uncond : Cond Ctx Y) (cond_scale : Q) :
  wf_inputs x t cond uncond ->
  (slg self == 0 \/ skip_start self == skip_end self) ->
  slg_forward den self x t cond uncond cond_scale =
  (cfg_spec den x t cond uncond cond_scale, incr_step self,
   [mkCall (x ++ x) (t ++ t) (c_crossattn cond ++ c_crossattn uncond)
           (y cond ++ y uncond) []]).
Proof.
  intros W H. apply slg_forward_closed; [exact W|].
  intros (H0 & H1 & H2). destruct H as [H | H].
  - rewrite H in H0. exact (Qlt_irrefl 0 H0).
  - rewrite H in H1. apply (Qlt_irrefl (inject_Z (step self))).
    exact (Qlt_trans _ _ _ H2 H1).
Qed.

(** C4: every call of [forward] increments the step counter by exactly one
    and leaves the rest of the configuration unchanged, whether or not the
    skip branch ran; the counter starts at 0. *)
Theorem slg_forward_step (self : SLG) (x : Batch) (t : list Q)
    (cond uncond : Cond Ctx Y) (cond_scale : Q) :
  let self' := snd (fst (slg_forward den self x t cond uncond cond_scale)) in
  step self' = (step self + 1)%Z /\
  steps self' = steps self /\ slg self' = slg self /\
  skip_start self' = skip_start self /\ skip_end self' = skip_end self /\
  skip_layers self' = skip_layers self /\
  (forall n sc st en l, step (slg_init n sc st en l) = 0%Z).
Proof.
  unfold slg_forward. destruct (chunk2 _) as [pos_out neg_out].
  destruct (slg_gate self); simpl; repeat split.
Qed.

End Lemmas.

Import Concrete.

(** C1 fails: at [cond_scale = 1.0], with outputs [pos_out = [[1]]] and
    [neg_out = [[0]]], [CFGDenoiser.forward] returns [[2.5]], neither
    [neg_out + (pos_out - neg_out) * 1] nor [pos_out]. *)
Theorem cfg_forward_ignores_cond_scale :
  beq (cfg_forward den_c x0 t0 cond1 uncond1 1) [[5 # 2]] /\
  ~ beq (cfg_forward den_c x0 t0 cond1 uncond1 1) (cfg_spec den_c x0 t0 cond1 uncond1 1) /\
  ~ beq (cfg_forward den_c x0 t0 cond1 uncond1 1) (denoise_under den_c x0 t0 cond1).
Proof.
  split; [|split].
  - vm_compute. repeat constructor.
  - vm_compute. intro H. inversion H as [|a b l l' Ha]. inversion Ha as [|u v k k' Hu].
    discriminate Hu.
  - vm_compute. intro H. inversion H as [|a b l l' Ha]. inversion Ha as [|u v k k' Hu].
    discriminate Hu.
Qed.

Lemma wf_concrete : wf_inputs x0 t0 cond1 uncond1.
Proof. repeat split. Qed.

Lemma slg_forward_gate_witness :
  wf_inputs x0 t0 cond1 uncond1 /\ slg_window st_open /\
  length (snd (slg_forward den_c st_open x0 t0 cond1 uncond1 1)) = 2%nat.
Proof.
  assert (G : slg_window st_open) by (vm_compute; repeat split; reflexivity).
  split; [exact wf_concrete | split; [exact G|]].
  rewrite (proj1 (slg_forward_gate den_c st_open x0 t0 cond1 uncond1 1 wf_concrete) G).
  reflexivity.
Defined.

Lemma slg_degenerates_to_cfg_witness :
  wf_inputs x0 t0 cond1 uncond1 /\ (slg st_zero == 0 \/ skip_start st_zero == skip_end st_zero) /\
  wf_inputs x0 t0 cond1 uncond1 /\ (slg st_empty == 0 \/ skip_start st_empty == skip_end st_empty) /\
  length (snd (slg_forward den_c st_zero x0 t0 cond1 uncond1 1)) = 1%nat /\
  length (snd (slg_forward den_c st_empty x0 t0 cond1 uncond1 1)) = 1%nat.
Proof.
  assert (Hz : slg st_zero == 0 \/ skip_start st_zero == skip_end st_zero)
    by (left; reflexivity).
  assert (He : slg st_empty == 0 \/ skip_start st_empty == skip_end st_empty)
    by (right; reflexivity).
  split; [exact wf_concrete | split; [exact Hz | split; [exact wf_concrete | split; [exact He|]]]].
  split.
  - rewrite (slg_degenerates_to_cfg den_c st_zero x0 t0 cond1 uncond1 1 wf_concrete Hz).
    reflexivity.
  - rewrite (slg_degenerates_to_cfg den_c st_empty x0 t0 cond1 uncond1 1 wf_concrete He).
    reflexivity.
Defined.

End GuidanceProofs.

Module SamplerProofs.
Import Samplers Concrete.

Lemma euler_iter_succ (model : GuidedModel) (sigmas : list Q) (x : Batch) (i : nat) :
  euler_iter model sigmas x (S i) =
  euler_spec_step model sigmas i (euler_iter model sigmas x i).
Proof.
  simpl. unfold euler_body, euler_spec_step, to_d. rewrite Nat.add_1_r. reflexivity.
Qed.

(** C5: [sample_euler] runs [len(sigmas) - 1] steps, step [i] being
    [denoised = model(x, sigma[i])], [d = (x - denoised)/sigma[i]],
    [x = x + d * (sigma[i+1] - sigma[i])] (for any sigma sequence, so in
    particular a strictly decreasing one); with the zero denoiser,
    [x = [1.0]] and [sigma = [1, 0]] it returns [0.0]. *)
Theorem sample_euler_steps :
  (forall (model : GuidedModel) (x : Batch) (sigmas : list Q),
     sample_euler model x sigmas = euler_iter model sigmas x (length sigmas - 1)) /\
  (forall (model : GuidedModel) (sigmas : list Q) (x : Batch) (i : nat),
     euler_iter model sigmas x (S i) =
     euler_spec_step model sigmas i (euler_iter model sigmas x i)) /\
  euler_iter zero_model [1; 0] [[1]] 0 = [[1]] /\
  beq (sample_euler zero_model [[1]] [1; 0]) [[0]].
Proof.
  split; [reflexivity | split; [exact euler_iter_succ | split; [reflexivity|]]].
  vm_compute. repeat constructor.
Qed.

Section DPMProofs.
Variables (exp log expm1 : Q -> Q).

Lemma dpm_old_none (model : GuidedModel) (sigmas : list Q) (x : Batch) (i : nat) :
  old_denoised (dpm_iter exp log expm1 model sigmas x i) = None <-> i = 0%nat.
Proof.
  destruct i as [|i]; simpl; [tauto|].
  unfold dpm_body.
  destruct (old_denoised (dpm_iter exp log expm1 model sigmas x i));
    [destruct (Qeq_bool (nth (S i) sigmas 0) 0)|]; simpl; split; discriminate.
Qed.

(** C6: at the first step, or whenever [sigmas[i+1] == 0], the step of
    [sample_dpmpp_2m] applies the first-order update
    [x = (sigma_fn(t_next)/sigma_fn(t)) * x - expm1(-h) * denoised] and
    records the first-order branch: the branch computing
    [r = h_last / h] is not taken. *)
Theorem dpm_first_order_step (model : GuidedModel) (sigmas : list Q) (x : Batch) (i : nat) :
  (old_denoised (dpm_iter exp log expm1 model sigmas x i) = None \/
   nth (i + 1) sigmas 0 == 0) ->
  let st := dpm_iter exp log expm1 model sigmas x i in
  dpm_iter exp log expm1 model sigmas x (S i) =
  mkDPM (first_order_update exp log expm1 model sigmas i (dpm_x st))
        (Some (model (dpm_x st) (sigma_s_in (dpm_x st) (nth i sigmas 0))))
        (branches st ++ [FirstOrder]).
Proof.
  intros H st. unfold st. simpl. unfold dpm_body, first_order_update.
  rewrite Nat.add_1_r in *.
  destruct H as [H | H]; [rewrite H; reflexivity|].
  apply Qeq_bool_iff in H. rewrite H.
  destruct (old_denoised (dpm_iter exp log expm1 model sigmas x i)); reflexivity.
Qed.

End DPMProofs.

Lemma dpm_first_order_step_witness :
  (old_denoised (dpm_iter (fun q => q) (fun q => q) (fun q => q) zero_model
                   [1; 1 # 2; 0] [[1]] 1) = None \/ nth (1 + 1) [1; 1 # 2; 0] 0 == 0) /\
  branches (dpm_iter (fun q => q) (fun q => q) (fun q => q) zero_model
              [1; 1 # 2; 0] [[1]] 2) = [FirstOrder; FirstOrder].
Proof.
  assert (H : old_denoised (dpm_iter (fun q => q) (fun q => q) (fun q => q) zero_model
                   [1; 1 # 2; 0] [[1]] 1) = None \/ nth (1 + 1) [1; 1 # 2; 0] 0 == 0)
    by (right; reflexivity).
  split; [exact H|].
  rewrite (dpm_first_order_step (fun q => q) (fun q => q) (fun q => q) zero_model
             [1; 1 # 2; 0] [[1]] 1 H).
  reflexivity.
Defined.

End SamplerProofs.

Module PreviewProofs.
Import Preview Concrete.

(** C10: the preview depends only on batch element 0: two latents with
    the same element at index 0 (or both empty) give the same result. *)
Theorem preview_depends_on_first (x0 x0' : Latent) :
  hd_error x0 = hd_error x0' ->
  decode_latent_to_preview x0 = decode_latent_to_preview x0'.
Proof.
  destruct x0 as [|a r], x0' as [|a' r']; simpl; intro H;
    try discriminate; [reflexivity|].
  injection H as ->. reflexivity.
Qed.

Lemma preview_depends_on_first_witness :
  hd_error [lat16 1; lat16 0] = hd_error [lat16 1; lat16 (-1)] /\
  decode_latent_to_preview [lat16 1; lat16 0] = decode_latent_to_preview [lat16 1; lat16 (-1)].
Proof.
  split; [reflexivity|].
  apply preview_depends_on_first. reflexivity.
Defined.

End PreviewProofs.

Module ScheduleExtraProofs.
Import ModelSamplingDiscreteFlow ScheduleProofs.

Lemma denom_pos (s u : Q) : 0 < s -> 0 <= u -> u <= 1 -> 0 < 1 + (s - 1) * u.
Proof. intros Hs H0 H1. nra. Qed.

Lemma sigma_scaled (self : t) (ts : Q) :
  0 < shift self ->
  sigma self ts == shift self * (ts / 1000) / (1 + (shift self - 1) * (ts / 1000)).
Proof.
  intro Hs. destruct (Qeq_dec (shift self) 1) as [E | E].
  - rewrite sigma_shift1 by exact E. rewrite E. field.
  - rewrite sigma_shift_other by exact E. reflexivity.
Qed.

(** X1: for a positive shift the schedule is strictly increasing on
    [0, 1000] and stays in [0, 1]. *)
Theorem sigma_monotone_range (self : t) (t1 t2 : Q) :
  0 < shift self -> 0 <= t1 -> t1 < t2 -> t2 <= 1000 ->
  sigma self t1 < sigma self t2 /\
  0 <= sigma self t1 /\ sigma self t2 <= 1.
Proof.
  intros Hs H1 H12 H2.
  rewrite !sigma_scaled by exact Hs.
  set (s := shift self) in *.
  set (u1 := t1 / 1000). set (u2 := t2 / 1000).
  assert (U : 0 <= u1 /\ u1 < u2 /\ u2 <= 1).
  { unfold u1, u2, Qdiv. change (/ 1000) with (1 # 1000). repeat split; lra. }
  destruct U as (U1 & U12 & U2).
  assert (D1 : 0 < 1 + (s - 1) * u1) by (apply denom_pos; lra).
  assert (D2 : 0 < 1 + (s - 1) * u2) by (apply denom_pos; lra).
  split; [|split].
  - apply Qlt_shift_div_r; [exact D1|].
    setoid_replace (s * u2 / (1 + (s - 1) * u2) * (1 + (s - 1) * u1))
      with (s * u2 * (1 + (s - 1) * u1) / (1 + (s - 1) * u2))
      by (field; lra).
    apply Qlt_shift_div_l; [exact D2|]. nra.
  - apply Qle_shift_div_l; [exact D1|]. nra.
  - apply Qle_shift_div_r; [exact D2|]. nra.
Qed.

Lemma sigmas_nth (self : t) (i : nat) :
  (i < 1000)%nat ->
  nth i (sigmas self) 0 = sigma self (inject_Z (Z.of_nat (S i))).
Proof.
  intro Hi. unfold sigmas.
  pose proof (map_nth (fun n : nat => sigma self (inject_Z (Z.of_nat n)))
                (seq 1 1000) 0%nat i) as H.
  cbv beta in H.
  rewrite nth_indep with (d' := sigma self (inject_Z (Z.of_nat 0)))
    by (rewrite length_map, length_seq; exact Hi).
  rewrite H, seq_nth by exact Hi. reflexivity.
Qed.

(** X2: the [sigmas] buffer has 1000 entries, strictly increasing for a
    positive shift; [sigma_min] is [sigma(1)] and [sigma_max] is 1 for
    every positive shift. *)
Theorem sigmas_buffer (self : t) :
  0 < shift self ->
  length (sigmas self) = 1000%nat /\
  (forall i j, (i < j < 1000)%nat -> nth i (sigmas self) 0 < nth j (sigmas self) 0) /\
  sigma_min self = sigma self 1 /\
  sigma_max self == 1.
Proof.
  intro Hs. split; [|split; [|split]].
  - unfold sigmas. rewrite length_map, length_seq. reflexivity.
  - intros i j Hij. rewrite !sigmas_nth by lia.
    apply sigma_monotone_range; [exact Hs | | | ].
    + change 0 with (inject_Z 0). rewrite <- Zle_Qle. lia.
    + rewrite <- Zlt_Qlt. lia.
    + change 1000 with (inject_Z 1000). rewrite <- Zle_Qle. lia.
  - unfold sigma_min. rewrite sigmas_nth by lia. reflexivity.
  - unfold sigma_max, sigmas. rewrite seq_S, map_app. cbn [map]. rewrite last_last.
    rewrite sigma_scaled by exact Hs. simpl.
    setoid_replace (1 + (shift self - 1) * (1000 / 1000)) with (shift self) by field.
    field. intro E. rewrite E in Hs. discriminate.
Qed.

End ScheduleExtraProofs.

Module FlowProofs.
Import ModelSamplingDiscreteFlow.

Ltac rows_induction Hsh :=
  induction Hsh as [|r s n l Hlen Hsh IH]; simpl; constructor; [|exact IH];
  revert s Hlen; induction r as [|a r IHr]; intros [|b s] Hlen;
  simpl in *; try discriminate; constructor; [|apply IHr; lia].

(** X3: the denoising rule inverts the forward corruption: for the flow
    velocity [noise - latent], [calculate_denoised] at [sigma] applied to
    [noise_scaling(sigma, noise, latent)] gives back [latent]. *)
Theorem calculate_denoised_noise_scaling (sigma : Q) (noise latent : Batch) :
  same_shape noise latent ->
  beq (calculate_denoised (map (fun _ => sigma) noise) (bsub noise latent)
         (noise_scaling sigma noise latent))
      latent.
Proof.
  intro Hsh. unfold beq, calculate_denoised, noise_scaling, bsub, badd.
  rows_induction Hsh. ring.
Qed.

(** X4: [noise_scaling] at [sigma = 1] is the noise and at [sigma = 0] the
    latent image. *)
Theorem noise_scaling_endpoints (noise latent : Batch) :
  same_shape noise latent ->
  beq (noise_scaling 1 noise latent) noise /\ beq (noise_scaling 0 noise latent) latent.
Proof.
  intro Hsh. unfold beq, noise_scaling, badd. split; rows_induction Hsh; ring.
Qed.

(** X5: at [sigma = 0], [BaseModel.apply_model] returns its input [x]
    whatever the backbone outputs, as long as the backbone keeps the shape
    of its input and every sample has its conditioning rows. *)
Theorem apply_model_sigma0 {Ctx Y : Type}
    (diffusion_model : Sample -> Q -> Ctx -> Y -> list nat -> Sample)
    (ms : t) (x : Batch) (c : list Ctx) (yv : list Y) (sk : list nat) :
  (forall x0 ts c0 y0 sk0, length (diffusion_model x0 ts c0 y0 sk0) = length x0) ->
  length c = length x -> length yv = length x ->
  beq (BaseModel.apply_model diffusion_model ms x (map (fun _ => 0) x) c yv sk) x.
Proof.
  intros Hdm. unfold BaseModel.apply_model, calculate_denoised, beq, bsub.
  revert c yv. induction x as [|r x IH]; intros [|c0 c] [|y0 yv] Hc Hy;
    simpl in *; try discriminate; constructor.
  - specialize (Hdm r (timestep ms 0) c0 y0 sk).
    generalize dependent (diffusion_model r (timestep ms 0) c0 y0 sk).
    induction r as [|a r IHr]; intros [|o os] Hlen; simpl in *; try discriminate;
      constructor; [ring | apply IHr; lia].
  - apply IH; lia.
Qed.

Lemma apply_model_sigma0_witness :
  (forall (x0 : Sample) (ts : Q) (c0 y0 : unit) (sk0 : list nat),
     length ((fun x1 _ _ _ _ => map (fun v => v + 1) x1) x0 ts c0 y0 sk0) = length x0) /\
  length [tt] = length [[1; 2]] /\ length [tt] = length [[1; 2]] /\
  beq (BaseModel.apply_model (fun x1 _ (_ : unit) (_ : unit) _ => map (fun v => v + 1) x1)
         (mk 3) [[1; 2]] (map (fun _ => 0) [[1; 2]]) [tt] [tt] [])
      [[1; 2]].
Proof.
  assert (H : forall (x0 : Sample) (ts : Q) (c0 y0 : unit) (sk0 : list nat),
     length ((fun x1 _ _ _ _ => map (fun v => v + 1) x1) x0 ts c0 y0 sk0) = length x0)
    by (intros; apply length_map).
  split; [exact H | split; [reflexivity | split; [reflexivity|]]].
  exact (apply_model_sigma0 _ (mk 3) [[1; 2]] [tt] [tt] [] H eq_refl eq_refl).
Defined.

End FlowProofs.

Module SamplerExtraProofs.
Import Samplers ModelSamplingDiscreteFlow.

Lemma zipWith_Forall2 {A B C : Type} (f : A -> B -> C)
    (R1 : A -> A -> Prop) (R2 : B -> B -> Prop) (R3 : C -> C -> Prop)
    (l1 l1' : list A) (l2 l2' : list B) :
  (forall a a' b b', R1 a a' -> R2 b b' -> R3 (f a b) (f a' b')) ->
  Forall2 R1 l1 l1' -> Forall2 R2 l2 l2' ->
  Forall2 R3 (Tensor.zipWith f l1 l2) (Tensor.zipWith f l1' l2').
Proof.
  intros Hf H1. revert l2 l2'.
  induction H1 as [|a a' l1 l1' Ha H1 IH]; intros l2 l2' H2; simpl; [constructor|].
  destruct H2 as [|b b' l2 l2' Hb H2]; simpl; constructor; auto.
Qed.

Lemma map_Forall2 {A B : Type} (f g : A -> B) (R1 : A -> A -> Prop) (R2 : B -> B -> Prop)
    (l l' : list A) :
  (forall a a', R1 a a' -> R2 (f a) (g a')) ->
  Forall2 R1 l l' -> Forall2 R2 (map f l) (map g l').
Proof. intros Hf H. induction H; simpl; constructor; auto. Qed.

Lemma beq_refl (a : Batch) : beq a a.
Proof.
  unfold beq. induction a as [|r a IH]; constructor; [|exact IH].
  induction r; constructor; [reflexivity | assumption].
Qed.

Lemma beq_trans (a b c : Batch) : beq a b -> beq b c -> beq a c.
Proof.
  unfold beq. intros H1. revert c.
  induction H1 as [|r r' a a' Hr H1 IH]; intros c H2; inversion H2; subst; constructor;
    [|auto].
  clear - Hr H3. revert y H3.
  induction Hr as [|u u' r r' Hu Hr IHr]; intros z H; inversion H; subst; constructor;
    [rewrite Hu; assumption | auto].
Qed.

Lemma badd_beq (a a' b b' : Batch) : beq a a' -> beq b b' -> beq (badd a b) (badd a' b').
Proof.
  intros. apply (zipWith_Forall2 _ (Forall2 Qeq) (Forall2 Qeq) (Forall2 Qeq));
    [|assumption..].
  intros. apply (zipWith_Forall2 Qplus Qeq Qeq Qeq); [|assumption..].
  intros. apply Qplus_comp; assumption.
Qed.

Lemma bsub_beq (a a' b b' : Batch) : beq a a' -> beq b b' -> beq (bsub a b) (bsub a' b').
Proof.
  intros. apply (zipWith_Forall2 _ (Forall2 Qeq) (Forall2 Qeq) (Forall2 Qeq));
    [|assumption..].
  intros. apply (zipWith_Forall2 Qminus Qeq Qeq Qeq); [|assumption..].
  intros. apply Qminus_comp; assumption.
Qed.

Lemma bmul_s_beq (a a' : Batch) (c : Q) : beq a a' -> beq (bmul_s a c) (bmul_s a' c).
Proof.
  intros. apply (map_Forall2 _ _ (Forall2 Qeq) (Forall2 Qeq)); [|assumption].
  intros. apply (map_Forall2 _ _ Qeq Qeq); [|assumption].
  intros u u' E. rewrite E. reflexivity.
Qed.

Lemma bdiv_s_beq (a a' : Batch) (c : Q) : beq a a' -> beq (bdiv_s a c) (bdiv_s a' c).
Proof.
  intros. apply (map_Forall2 _ _ (Forall2 Qeq) (Forall2 Qeq)); [|assumption].
  intros. apply (map_Forall2 _ _ Qeq Qeq); [|assumption].
  intros u u' E. rewrite E. reflexivity.
Qed.

(** X6: one Euler step from [sigma[i] <> 0] is the convex combination
    [(sigma[i+1]/sigma[i]) * x + (1 - sigma[i+1]/sigma[i]) * denoised]; in
    particular a step to [sigma[i+1] == 0] returns the denoiser output. *)
Theorem euler_body_convex (model : GuidedModel) (sigmas : list Q) (i : nat) (x : Batch) :
  ~ nth i sigmas 0 == 0 ->
  same_shape x (model x (sigma_s_in x (nth i sigmas 0))) ->
  let denoised := model x (sigma_s_in x (nth i sigmas 0)) in
  let ratio := nth (S i) sigmas 0 / nth i sigmas 0 in
  beq (euler_body model sigmas i x) (badd (smul_b ratio x) (smul_b (1 - ratio) denoised)) /\
  (nth (S i) sigmas 0 == 0 -> beq (euler_body model sigmas i x) denoised).
Proof.
  intros Hs Hsh denoised ratio.
  unfold euler_body, to_d. fold denoised. fold denoised in Hsh.
  set (s := nth i sigmas 0) in *. set (s' := nth (S i) sigmas 0) in *.
  unfold ratio. split; [|intro Hz];
    unfold beq, badd, bsub, bmul_s, bdiv_s, smul_b;
    induction Hsh as [|r d xs ds Hlen Hsh IH]; simpl; constructor; auto;
    revert d Hlen; induction r as [|a r IHr]; intros [|b d] Hlen;
    simpl in *; try discriminate; constructor; auto.
  - field. exact Hs.
  - rewrite Hz. field. exact Hs.
Qed.

Import FlowProofs.

Lemma noise_scaling_beq_latent (sg : Q) (nz x0 : Batch) :
  sg == 0 -> same_shape nz x0 -> beq (noise_scaling sg nz x0) x0.
Proof.
  intros Hz Hsh. unfold beq, noise_scaling, badd. rows_induction Hsh.
  rewrite Hz. ring.
Qed.

Lemma euler_body_const_line (x0 nz : Batch) (sigmas : list Q) (i : nat) (x : Batch) :
  same_shape nz x0 -> ~ nth i sigmas 0 == 0 ->
  beq x (noise_scaling (nth i sigmas 0) nz x0) ->
  beq (euler_body (fun _ _ => x0) sigmas i x) (noise_scaling (nth (S i) sigmas 0) nz x0).
Proof.
  intros Hsh Hs Hx. unfold euler_body, to_d.
  eapply beq_trans.
  { apply badd_beq; [exact Hx|]. apply bmul_s_beq, bdiv_s_beq, bsub_beq;
      [exact Hx | apply beq_refl]. }
  set (sg := nth i sigmas 0) in *. set (sg' := nth (S i) sigmas 0).
  clear Hx. unfold beq, noise_scaling, badd, bsub, bmul_s, bdiv_s.
  rows_induction Hsh. field. exact Hs.
Qed.

(** X7: with a denoiser that always returns the same latent [x0], Euler
    started at [noise_scaling(sigma[0], noise, x0)] stays on the line
    [noise_scaling(sigma[k], noise, x0)] after [k] steps (all sigmas but
    the last nonzero), so a schedule ending at 0 returns exactly [x0]. *)
Theorem euler_const_denoiser (x0 noise : Batch) (sigmas : list Q) :
  same_shape noise x0 ->
  (forall i, (i < length sigmas - 1)%nat -> ~ nth i sigmas 0 == 0) ->
  (forall k, (k <= length sigmas - 1)%nat ->
     beq (euler_iter (fun _ _ => x0) sigmas (noise_scaling (nth 0 sigmas 0) noise x0) k)
         (noise_scaling (nth k sigmas 0) noise x0)) /\
  (nth (length sigmas - 1) sigmas 0 == 0 ->
   beq (sample_euler (fun _ _ => x0) (noise_scaling (nth 0 sigmas 0) noise x0) sigmas) x0).
Proof.
  intros Hsh Hnz.
  assert (Hk : forall k, (k <= length sigmas - 1)%nat ->
     beq (euler_iter (fun _ _ => x0) sigmas (noise_scaling (nth 0 sigmas 0) noise x0) k)
         (noise_scaling (nth k sigmas 0) noise x0)).
  { induction k as [|k IH]; intro Hle; simpl.
    - apply beq_refl.
    - apply euler_body_const_line; [exact Hsh | apply Hnz; lia | apply IH; lia]. }
  split; [exact Hk|]. intro Hz.
  eapply beq_trans; [apply Hk; lia|].
  apply noise_scaling_beq_latent; assumption.
Qed.

(** X8: with fewer than two sigmas both samplers run no step and return
    their input unchanged. *)
Theorem samplers_short_schedule (exp log expm1 : Q -> Q) (model : GuidedModel)
    (x : Batch) (sigmas : list Q) :
  (length sigmas <= 1)%nat ->
  sample_euler model x sigmas = x /\ sample_dpmpp_2m exp log expm1 model x sigmas = x.
Proof.
  intro H. unfold sample_euler, sample_dpmpp_2m.
  replace (length sigmas - 1)%nat with 0%nat by lia. split; reflexivity.
Qed.

Lemma dpm_iter_S (exp log expm1 : Q -> Q) (model : GuidedModel) (sigmas : list Q)
    (x : Batch) (k : nat) :
  dpm_iter exp log expm1 model sigmas x (S k) =
  dpm_body exp log expm1 model sigmas k (dpm_iter exp log expm1 model sigmas x k).
Proof. reflexivity. Qed.

Lemma dpm_old_after (exp log expm1 : Q -> Q) (model : GuidedModel) (sigmas : list Q)
    (x : Batch) (j : nat) :
  let prev := dpm_iter exp log expm1 model sigmas x j in
  old_denoised (dpm_iter exp log expm1 model sigmas x (S j)) =
  Some (model (dpm_x prev) (sigma_s_in (dpm_x prev) (nth j sigmas 0))).
Proof.
  intro prev. rewrite dpm_iter_S. fold prev. unfold dpm_body.
  destruct (old_denoised prev); [destruct (Qeq_bool (nth (S j) sigmas 0) 0)|];
    reflexivity.
Qed.

(** X9: from the second step on, when [sigmas[i+1]] is not 0,
    [sample_dpmpp_2m] takes the second-order branch with
    [r = h_last / h], [h_last] the log-sigma step from [sigmas[i-1]] to
    [sigmas[i]] and [h] the one from [sigmas[i]] to [sigmas[i+1]]; the
    history it blends is the denoiser output of the previous step. *)
Theorem dpm_second_order_step (exp log expm1 : Q -> Q) (model : GuidedModel)
    (sigmas : list Q) (x : Batch) (j : nat) :
  ~ nth (S (S j)) sigmas 0 == 0 ->
  let prev := dpm_iter exp log expm1 model sigmas x j in
  let st := dpm_iter exp log expm1 model sigmas x (S j) in
  old_denoised st = Some (model (dpm_x prev) (sigma_s_in (dpm_x prev) (nth j sigmas 0))) /\
  branches (dpm_iter exp log expm1 model sigmas x (S (S j))) =
  branches st ++
    [SecondOrder ((t_fn log (nth (S j) sigmas 0) - t_fn log (nth j sigmas 0)) /
                  (t_fn log (nth (S (S j)) sigmas 0) - t_fn log (nth (S j) sigmas 0)))].
Proof.
  intros Hnz prev st. split; [apply dpm_old_after|].
  rewrite dpm_iter_S. fold st. unfold dpm_body at 1.
  pose proof (dpm_old_after exp log expm1 model sigmas x j) as Hold.
  fold prev st in Hold. rewrite Hold.
  destruct (Qeq_bool (nth (S (S j)) sigmas 0) 0) eqn:E.
  - apply Qeq_bool_iff in E. contradiction.
  - simpl. rewrite Nat.sub_0_r. reflexivity.
Qed.

End SamplerExtraProofs.

Module GuidanceExtraProofs.
Import Guidance GuidanceProofs SamplerExtraProofs.

Section Run.
Context {Ctx Y : Type}.
Variable den : Sample -> Q -> Ctx -> Y -> list nat -> Sample.

Lemma slg_forward_counts (self : SLG) (x : Batch) (t : list Q) (cond uncond : Cond Ctx Y)
    (cs : Q) :
  snd (fst (slg_forward den self x t cond uncond cs)) = incr_step self /\
  length (snd (slg_forward den self x t cond uncond cs)) =
  (if slg_gate self then 2 else 1)%nat.
Proof.
  unfold slg_forward. destruct (chunk2 _). destruct (slg_gate self); split; reflexivity.
Qed.

(** X10: over a run of [forward] calls the counter advances by the number
    of calls, and call number [i] makes two denoiser evaluations exactly
    when the skip-layer gate holds at counter value [step + i], one
    otherwise. *)
Theorem slg_run_schedule (self : SLG) (inputs : list (Batch * list Q))
    (cond uncond : Cond Ctx Y) (cs : Q) :
  let '(outs, self', counts) := slg_run den self inputs cond uncond cs in
  step self' = (step self + Z.of_nat (length inputs))%Z /\
  length outs = length inputs /\
  length counts = length inputs /\
  (forall i, (i < length inputs)%nat ->
     nth i counts 0%nat =
     (if slg_gate (at_step self (step self + Z.of_nat i)) then 2 else 1)%nat).
Proof.
  revert self. induction inputs as [|[x t] rest IH]; intro self; simpl.
  - repeat split; [lia | intros; lia].
  - destruct (slg_forward_counts self x t cond uncond cs) as [Hs Hc].
    destruct (slg_forward den self x t cond uncond cs) as [[out self1] calls].
    simpl in Hs, Hc. subst self1.
    specialize (IH (incr_step self)).
    destruct (slg_run den (incr_step self) rest cond uncond cs) as [[outs self2] counts].
    destruct IH as (H1 & H2 & H3 & H4).
    split; [|split; [simpl; lia | split; [simpl; lia|]]].
    + rewrite H1. simpl. lia.
    + intros [|i] Hi; simpl.
      * rewrite Hc. replace (step self + 0)%Z with (step self) by lia.
        destruct self; reflexivity.
      * rewrite H4 by lia. simpl.
        replace (step self + 1 + Z.of_nat i)%Z with (step self + Z.of_nat (S i))%Z
          by lia.
        reflexivity.
Qed.

(** X11: when [skip_end <= skip_start] (and [steps >= 0]) the window is
    empty: every call makes only the batched cond/uncond evaluation and
    returns the plain CFG result, at every counter value. *)
Theorem slg_inverted_window (self : SLG) (x : Batch) (t : list Q)
    (cond uncond : Cond Ctx Y) (cs : Q) :
  wf_inputs x t cond uncond ->
  skip_end self <= skip_start self -> (0 <= steps self)%Z ->
  slg_forward den self x t cond uncond cs =
  (cfg_spec den x t cond uncond cs, incr_step self,
   [mkCall (x ++ x) (t ++ t) (c_crossattn cond ++ c_crossattn uncond)
           (y cond ++ y uncond) []]).
Proof.
  intros W Hse Hn. apply slg_forward_closed; [exact W|].
  intros (_ & H1 & H2).
  assert (HN : 0 <= inject_Z (steps self)) by (change 0 with (inject_Z 0); rewrite <- Zle_Qle; exact Hn).
  assert (Hm : skip_end self * inject_Z (steps self) <= skip_start self * inject_Z (steps self))
    by (apply Qmult_le_compat_r; assumption).
  apply (Qlt_irrefl (inject_Z (step self))).
  apply (Qlt_trans _ _ _ H2). apply (Qle_lt_trans _ _ _ Hm H1).
Qed.

(** X12: the first call after construction never runs the skip-layer
    evaluation when [start >= 0] and [steps >= 0]: it returns the plain CFG
    result. *)
Theorem slg_first_call_plain (n : Z) (scale start end_ : Q) (layers : list nat)
    (x : Batch) (t : list Q) (cond uncond : Cond Ctx Y) (cs : Q) :
  wf_inputs x t cond uncond -> 0 <= start -> (0 <= n)%Z ->
  slg_forward den (slg_init n scale start end_ layers) x t cond uncond cs =
  (cfg_spec den x t cond uncond cs, incr_step (slg_init n scale start end_ layers),
   [mkCall (x ++ x) (t ++ t) (c_crossattn cond ++ c_crossattn uncond)
           (y cond ++ y uncond) []]).
Proof.
  intros W Hs Hn. apply slg_forward_closed; [exact W|].
  intros (_ & H1 & _). simpl in H1.
  assert (HN : 0 <= inject_Z n) by (change 0 with (inject_Z 0); rewrite <- Zle_Qle; exact Hn).
  assert (H0 : 0 <= start * inject_Z n) by (apply Qmult_le_0_compat; assumption).
  apply (Qlt_irrefl 0). apply (Qle_lt_trans _ _ _ H0 H1).
Qed.



(** X14: outside the skip window, [SkipLayerCFGDenoiser.forward] with
    [cond_scale = 1] returns the conditioned output [pos_out] (unlike
    [CFGDenoiser.forward], which uses 2.5). *)
Theorem slg_scale1_is_pos (self : SLG) (x : Batch) (t : list Q)
    (cond uncond : Cond Ctx Y) :
  wf_inputs x t cond uncond -> ~ slg_window self ->
  same_shape (denoise_under den x t cond) (denoise_under den x t uncond) ->
  beq (fst (fst (slg_forward den self x t cond uncond 1))) (denoise_under den x t cond).
Proof.
  intros W G Hsh. rewrite (slg_forward_closed den self x t cond uncond 1 W G). simpl.
  unfold cfg_spec. unfold beq, badd, bsub, bmul_s.
  induction Hsh as [|r s n l Hlen Hsh IH]; simpl; constructor; [|exact IH].
  revert s Hlen. induction r as [|a r IHr]; intros [|b s] Hlen;
    simpl in *; try discriminate; constructor; [ring | apply IHr; lia].
Qed.

End Run.

Import Concrete.

Lemma slg_inverted_window_witness :
  wf_inputs x0 t0 cond1 uncond1 /\ skip_end st_inv <= skip_start st_inv /\
  (0 <= steps st_inv)%Z /\
  length (snd (slg_forward den_c st_inv x0 t0 cond1 uncond1 1)) = 1%nat.
Proof.
  assert (H1 : skip_end st_inv <= skip_start st_inv) by (vm_compute; discriminate).
  assert (H2 : (0 <= steps st_inv)%Z) by (vm_compute; discriminate).
  split; [exact wf_concrete | split; [exact H1 | split; [exact H2|]]].
  rewrite (slg_inverted_window den_c st_inv x0 t0 cond1 uncond1 1 wf_concrete H1 H2).
  reflexivity.
Defined.

Lemma slg_first_call_plain_witness :
  wf_inputs x0 t0 cond1 uncond1 /\ 0 <= 1 # 100 /\ (0 <= 10)%Z /\
  length (snd (slg_forward den_c (slg_init 10 3 (1 # 100) (2 # 10) [7%nat])
                 x0 t0 cond1 uncond1 1)) = 1%nat.
Proof.
  assert (H1 : 0 <= 1 # 100) by (vm_compute; discriminate).
  assert (H2 : (0 <= 10)%Z) by (vm_compute; discriminate).
  split; [exact wf_concrete | split; [exact H1 | split; [exact H2|]]].
  rewrite (slg_first_call_plain den_c 10 3 (1 # 100) (2 # 10) [7%nat] x0 t0 cond1 uncond1 1
             wf_concrete H1 H2).
  reflexivity.
Defined.


Lemma slg_scale1_is_pos_witness :
  wf_inputs x0 t0 cond1 uncond1 /\ ~ slg_window st_zero /\
  same_shape (denoise_under den_c x0 t0 cond1) (denoise_under den_c x0 t0 uncond1) /\
  beq (fst (fst (slg_forward den_c st_zero x0 t0 cond1 uncond1 1)))
      (denoise_under den_c x0 t0 cond1).
Proof.
  assert (G : ~ slg_window st_zero) by (intros (H & _); vm_compute in H; discriminate).
  assert (S : same_shape (denoise_under den_c x0 t0 cond1) (denoise_under den_c x0 t0 uncond1))
    by (vm_compute; repeat constructor).
  split; [exact wf_concrete | split; [exact G | split; [exact S|]]].
  exact (slg_scale1_is_pos den_c st_zero x0 t0 cond1 uncond1 wf_concrete G S).
Defined.

End GuidanceExtraProofs.

Module ExtraWitnesses.
Import ModelSamplingDiscreteFlow Samplers Concrete.

Lemma sigma_monotone_range_witness :
  0 < shift (mk 3) /\ 0 <= 100 /\ 100 < 500 /\ 500 <= 1000 /\
  sigma (mk 3) 100 < sigma (mk 3) 500.
Proof.
  assert (H : 0 < shift (mk 3) /\ 0 <= 100 /\ 100 < 500 /\ 500 <= 1000)
    by (vm_compute; repeat split; reflexivity || discriminate).
  destruct H as (H1 & H2 & H3 & H4).
  split; [exact H1 | split; [exact H2 | split; [exact H3 | split; [exact H4|]]]].
  exact (proj1 (ScheduleExtraProofs.sigma_monotone_range (mk 3) 100 500 H1 H2 H3 H4)).
Defined.

Lemma sigmas_buffer_witness :
  0 < shift (mk 3) /\ sigma_max (mk 3) == 1.
Proof.
  assert (H : 0 < shift (mk 3)) by reflexivity.
  split; [exact H|].
  exact (proj2 (proj2 (proj2 (ScheduleExtraProofs.sigmas_buffer (mk 3) H)))).
Defined.

Lemma calculate_denoised_noise_scaling_witness :
  same_shape [[1; 2]] [[3; 5]] /\
  beq (calculate_denoised (map (fun _ => 1 # 3) [[1; 2]]) (bsub [[1; 2]] [[3; 5]])
         (noise_scaling (1 # 3) [[1; 2]] [[3; 5]])) [[3; 5]].
Proof.
  assert (H : same_shape [[1; 2]] [[3; 5]]) by repeat constructor.
  split; [exact H|].
  exact (FlowProofs.calculate_denoised_noise_scaling (1 # 3) _ _ H).
Defined.

Lemma noise_scaling_endpoints_witness :
  same_shape [[1; 2]] [[3; 5]] /\ beq (noise_scaling 0 [[1; 2]] [[3; 5]]) [[3; 5]].
Proof.
  assert (H : same_shape [[1; 2]] [[3; 5]]) by repeat constructor.
  split; [exact H|].
  exact (proj2 (FlowProofs.noise_scaling_endpoints _ _ H)).
Defined.

Lemma euler_body_convex_witness :
  ~ nth 0 [1; 0] 0 == 0 /\
  same_shape [[1]] (zero_model [[1]] (sigma_s_in [[1]] (nth 0 [1; 0] 0))) /\
  beq (euler_body zero_model [1; 0] 0 [[1]]) (zero_model [[1]] (sigma_s_in [[1]] 1)).
Proof.
  assert (H1 : ~ nth 0 [1; 0] 0 == 0) by (vm_compute; discriminate).
  assert (H2 : same_shape [[1]] (zero_model [[1]] (sigma_s_in [[1]] (nth 0 [1; 0] 0))))
    by (vm_compute; repeat constructor).
  split; [exact H1 | split; [exact H2|]].
  exact (proj2 (SamplerExtraProofs.euler_body_convex zero_model [1; 0] 0 [[1]] H1 H2)
               ltac:(reflexivity)).
Defined.

Lemma euler_const_denoiser_witness :
  same_shape [[7]] [[2]] /\
  (forall i, lt i (Nat.sub (length [1; 1 # 2; 0]) 1) -> ~ nth i [1; 1 # 2; 0] 0 == 0) /\
  beq (sample_euler (fun _ _ => [[2]]) (noise_scaling (nth 0 [1; 1 # 2; 0] 0) [[7]] [[2]])
         [1; 1 # 2; 0]) [[2]].
Proof.
  assert (H1 : same_shape [[7]] [[2]]) by repeat constructor.
  assert (H2 : forall i, lt i (Nat.sub (length [1; 1 # 2; 0]) 1) -> ~ nth i [1; 1 # 2; 0] 0 == 0).
  { intros [|[|i]] Hi; simpl in Hi; [vm_compute; discriminate | vm_compute; discriminate | lia]. }
  split; [exact H1 | split; [exact H2|]].
  exact (proj2 (SamplerExtraProofs.euler_const_denoiser [[2]] [[7]] [1; 1 # 2; 0] H1 H2)
               ltac:(reflexivity)).
Defined.

Lemma samplers_short_schedule_witness :
  le (length [1]) 1 /\ sample_euler zero_model [[5]] [1] = [[5]].
Proof.
  assert (H : le (length [1]) 1) by (simpl; lia).
  split; [exact H|].
  exact (proj1 (SamplerExtraProofs.samplers_short_schedule (fun q => q) (fun q => q)
                  (fun q => q) zero_model [[5]] [1] H)).
Defined.

Lemma dpm_second_order_step_witness :
  ~ nth 2 [1; 1 # 2; 1 # 4; 0] 0 == 0 /\
  branches (dpm_iter (fun q => q) (fun q => q) (fun q => q) zero_model
              [1; 1 # 2; 1 # 4; 0] [[1]] 2) =
  [FirstOrder; SecondOrder ((t_fn (fun q => q) (1 # 2) - t_fn (fun q => q) 1) /
                            (t_fn (fun q => q) (1 # 4) - t_fn (fun q => q) (1 # 2)))].
Proof.
  assert (H : ~ nth 2 [1; 1 # 2; 1 # 4; 0] 0 == 0) by (vm_compute; discriminate).
  split; [exact H|].
  rewrite (proj2 (SamplerExtraProofs.dpm_second_order_step (fun q => q) (fun q => q)
                    (fun q => q) zero_model [1; 1 # 2; 1 # 4; 0] [[1]] 0 H)).
  reflexivity.
Defined.

End ExtraWitnesses.

Module CodecExtraProofs.
Import Preview SD3LatentFormat.

(** X15: [process_in] undoes [process_out] as well: the affine latent map
    is a bijection, [process_in(process_out(x)) == x]. *)
Theorem process_in_out (x : Batch) : beq (process_in (process_out x)) x.
Proof.
  unfold beq, process_out, process_in. rewrite map_map.
  induction x as [|r x IH]; simpl; constructor; [|exact IH].
  rewrite map_map. induction r as [|v r IHr]; simpl; constructor; [|exact IHr].
  unfold scale_factor, shift_factor. field.
Qed.

Lemma clamp01_range (u : Q) : 0 <= clamp01 u <= 1.
Proof.
  unfold clamp01. destruct (Qle_bool 0 u) eqn:E0; simpl.
  - apply Qle_bool_iff in E0. destruct (Qle_bool u 1) eqn:E1.
    + apply Qle_bool_iff in E1. split; assumption.
    + split; discriminate.
  - split; discriminate.
Qed.

Lemma to_ubyte_range (v : Q) : (0 <= to_ubyte v <= 255)%Z.
Proof.
  unfold to_ubyte. destruct (clamp01_range ((v + 1) / 2)) as [H0 H1].
  split.
  - rewrite <- (Qfloor_Z 0). apply Qfloor_resp_le. simpl.
    apply Qmult_le_0_compat; [exact H0 | discriminate].
  - rewrite <- (Qfloor_Z 255). apply Qfloor_resp_le.
    setoid_replace (inject_Z 255) with (1 * 255) by reflexivity.
    apply Qmult_le_compat_r; [exact H1 | discriminate].
Qed.

(** X16: every value of the preview image is a byte in [0, 255]; projections
    at or above 1 saturate to 255 and those at or below -1 to 0. *)
Theorem preview_bytes (x0 : Latent) (img : list (list (list Z))) :
  decode_latent_to_preview x0 = Some img ->
  Forall (Forall (Forall (fun b => (0 <= b <= 255)%Z))) img /\
  (forall v, 1 <= v -> to_ubyte v = 255%Z) /\
  (forall v, v <= -1 -> to_ubyte v = 0%Z).
Proof.
  intro H. split; [|split].
  - unfold decode_latent_to_preview in H.
    destruct x0 as [|a r]; [discriminate|].
    destruct (Nat.eqb (length a) 16); [|discriminate].
    injection H as <-.
    apply Forall_forall. intros row Hrow. apply in_map_iff in Hrow.
    destruct Hrow as (row0 & <- & _).
    apply Forall_forall. intros px Hpx. apply in_map_iff in Hpx.
    destruct Hpx as (px0 & <- & _).
    apply Forall_forall. intros b Hb. apply in_map_iff in Hb.
    destruct Hb as (v & <- & _). apply to_ubyte_range.
  - intros v Hv. unfold to_ubyte, clamp01.
    assert (Hu : 1 <= (v + 1) / 2).
    { apply Qle_shift_div_l; [reflexivity | lra]. }
    destruct (Qle_bool 0 ((v + 1) / 2)) eqn:E0.
    + cbn [negb]. destruct (Qle_bool ((v + 1) / 2) 1) eqn:E1.
      * apply Qle_bool_iff in E1.
        assert (Heq : (v + 1) / 2 == 1) by (apply Qle_antisym; assumption).
        rewrite Heq. reflexivity.
      * reflexivity.
    + apply not_true_iff_false in E0. exfalso. apply E0.
      apply Qle_bool_iff. lra.
  - intros v Hv. unfold to_ubyte, clamp01.
    assert (Hu : (v + 1) / 2 <= 0).
    { apply Qle_shift_div_r; [reflexivity | lra]. }
    destruct (Qle_bool 0 ((v + 1) / 2)) eqn:E0; [|reflexivity].
    apply Qle_bool_iff in E0.
    assert (Heq : (v + 1) / 2 == 0) by (apply Qle_antisym; assumption).
    cbn [negb].
    destruct (Qle_bool ((v + 1) / 2) 1) eqn:E1; [rewrite Heq; reflexivity|].
    apply not_true_iff_false in E1. exfalso. apply E1. apply Qle_bool_iff. lra.
Qed.

(** X17: for a first batch element with 16 channels of [h] rows of [w]
    values, the preview exists and is an [h] x [w] image of RGB triples. *)
Theorem preview_shape (a : list (list (list Q))) (r : Latent) (h w : nat) :
  length a = 16%nat ->
  Forall (fun ch => length ch = h /\ Forall (fun row => length row = w) ch) a ->
  exists img, decode_latent_to_preview (a :: r) = Some img /\
    length img = h /\
    Forall (fun row => length row = w /\ Forall (fun px => length px = 3%nat) row) img.
Proof.
  intros Hlen Hch. unfold decode_latent_to_preview. rewrite Hlen. simpl.
  eexists; split; [reflexivity|].
  destruct a as [|ch0 rest]; [discriminate|]. simpl.
  inversion Hch as [|? ? [Hh Hw] _]; subst.
  rewrite !length_map, length_seq. split; [reflexivity|].
  apply Forall_forall. intros row Hrow.
  apply in_map_iff in Hrow. destruct Hrow as (row0 & <- & Hrow0).
  apply in_map_iff in Hrow0. destruct Hrow0 as (row1 & <- & Hrow1).
  apply in_map_iff in Hrow1. destruct Hrow1 as (hh & <- & Hhh).
  apply in_seq in Hhh.
  rewrite !length_map, length_seq. split.
  - destruct ch0 as [|row ch0]; simpl in Hhh; [lia|].
    inversion Hw; subst. reflexivity.
  - apply Forall_forall. intros px Hpx.
    apply in_map_iff in Hpx. destruct Hpx as (px0 & <- & Hpx0).
    apply in_map_iff in Hpx0. destruct Hpx0 as (px1 & <- & _).
    unfold vecmat. rewrite !length_map, length_seq. reflexivity.
Qed.

Lemma clamp_range (lo hi v : Q) : lo <= hi -> lo <= SDVAE.clamp lo hi v <= hi.
Proof.
  intro H. unfold SDVAE.clamp.
  destruct (Qle_bool lo v) eqn:E0.
  - apply Qle_bool_iff in E0. destruct (Qle_bool v hi) eqn:E1.
    + apply Qle_bool_iff in E1. split; assumption.
    + split; [exact H | apply Qle_refl].
  - destruct (Qle_bool lo hi) eqn:E1.
    + split; [apply Qle_refl | exact H].
    + apply not_true_iff_false in E1. exfalso. apply E1, Qle_bool_iff, H.
Qed.

(** X18: [SDVAE.encode] only ever evaluates [exp] on [0.5 * clamp(logvar)],
    which lies in [-15, 10]: two exponentials that agree there give the
    same latents, whatever the encoder outputs. *)
Theorem encode_exp_window {Img : Type} (exp1 exp2 : Q -> Q)
    (encoder : Img -> list (list Q)) (image : list Img) (noise : list (list (list Q))) :
  (forall v, -15 <= v <= 10 -> exp1 v = exp2 v) ->
  SDVAE.encode exp1 encoder image noise = SDVAE.encode exp2 encoder image noise.
Proof.
  intro Hexp. unfold SDVAE.encode. revert noise.
  induction image as [|img image IH]; intros [|nz noise]; simpl; try reflexivity.
  f_equal; [|apply IH].
  destruct (Guidance.chunk2 (encoder img)) as [mean logvar].
  f_equal. f_equal. rewrite !map_map. apply map_ext. intro row.
  rewrite !map_map. apply map_ext. intro v.
  apply Hexp.
  destruct (clamp_range (-30) 20 v) as [H0 H1]; [discriminate|].
  split; lra.
Qed.

End CodecExtraProofs.

Module CodecWitnesses.
Import Preview Concrete CodecExtraProofs.

Lemma preview_bytes_witness :
  exists img, decode_latent_to_preview [lat16 1] = Some img /\
    Forall (Forall (Forall (fun b => (0 <= b <= 255)%Z))) img.
Proof.
  eexists. split; [reflexivity|].
  exact (proj1 (preview_bytes [lat16 1] _ eq_refl)).
Defined.

Lemma preview_shape_witness :
  length (lat16 0) = 16%nat /\
  Forall (fun ch => length ch = 1%nat /\ Forall (fun row => length row = 1%nat) ch) (lat16 0) /\
  exists img, decode_latent_to_preview [lat16 0] = Some img /\ length img = 1%nat.
Proof.
  assert (H1 : length (lat16 0) = 16%nat) by reflexivity.
  assert (H2 : Forall (fun ch => length ch = 1%nat /\ Forall (fun row => length row = 1%nat) ch)
                 (lat16 0)) by (repeat constructor).
  split; [exact H1 | split; [exact H2|]].
  destruct (preview_shape (lat16 0) [] 1 1 H1 H2) as (img & Himg & Hl & _).
  exists img. split; assumption.
Defined.

Lemma encode_exp_window_witness :
  (forall v, -15 <= v <= 10 -> (fun q : Q => q) v = (fun q => if Qle_bool q 10 then q else 0) v) /\
  SDVAE.encode (fun q => q) (fun c : list (list Q) => c) [[[1]; [50]]] [[[1]]] =
  SDVAE.encode (fun q => if Qle_bool q 10 then q else 0) (fun c : list (list Q) => c)
    [[[1]; [50]]] [[[1]]].
Proof.
  assert (H : forall v, -15 <= v <= 10 ->
            (fun q : Q => q) v = (fun q => if Qle_bool q 10 then q else 0) v).
  { intros v [_ Hv]. simpl. apply Qle_bool_iff in Hv. rewrite Hv. reflexivity. }
  split; [exact H|].
  exact (encode_exp_window _ _ (fun c : list (list Q) => c) [[[1]; [50]]] [[[1]]] H).
Defined.

End CodecWitnesses.

Module VAEShapeProofs.
Import VAEShapes.
Local Open Scope nat_scope.

Lemma conv_dim_same (n : nat) : 1 <= n -> conv_dim n 3 1 1 = Some n.
Proof.
  intros Hn. unfold conv_dim.
  replace (Nat.leb 3 (n + 2 * 1)) with true by (symmetry; apply Nat.leb_le; lia).
  rewrite Nat.div_1_r. f_equal. lia.
Qed.

Lemma conv_dim_pointwise (n : nat) : 1 <= n -> conv_dim n 1 1 0 = Some n.
Proof.
  intros Hn. unfold conv_dim.
  replace (Nat.leb 1 (n + 2 * 0)) with true by (symmetry; apply Nat.leb_le; lia).
  rewrite Nat.div_1_r. f_equal. lia.
Qed.

Lemma conv_dim_down (n : nat) : 2 <= n -> conv_dim (n + 1) 3 2 0 = Some (n / 2).
Proof.
  intros Hn. unfold conv_dim.
  replace (Nat.leb 3 (n + 1 + 2 * 0)) with true by (symmetry; apply Nat.leb_le; lia).
  f_equal.
  pose proof (Nat.div_mod_eq n 2) as E. pose proof (Nat.mod_upper_bound n 2) as R.
  set (q := n / 2) in *. set (r := n mod 2) in *.
  assert (Hq : 1 <= q) by lia.
  rewrite <- (Nat.div_unique (n + 1 + 2 * 0 - 3) 2 (q - 1) r); lia.
Qed.

Lemma div2_ge (n m : nat) : 2 * m <= n -> m <= n / 2.
Proof. intros H. apply Nat.div_le_lower_bound; lia. Qed.

Lemma conv2d_same (cin cout h w : nat) :
  1 <= h -> 1 <= w -> conv2d cin cout 3 1 1 (mkShape cin h w) = Some (mkShape cout h w).
Proof.
  intros Hh Hw. unfold conv2d; cbn [sc sh sw].
  rewrite Nat.eqb_refl, conv_dim_same, conv_dim_same by assumption. reflexivity.
Qed.

Lemma conv2d_pointwise (cin cout h w : nat) :
  1 <= h -> 1 <= w -> conv2d cin cout 1 1 0 (mkShape cin h w) = Some (mkShape cout h w).
Proof.
  intros Hh Hw. unfold conv2d; cbn [sc sh sw].
  rewrite Nat.eqb_refl, conv_dim_pointwise, conv_dim_pointwise by assumption. reflexivity.
Qed.

Lemma normalize_same (c h w : nat) :
  c mod 32 = 0 -> normalize c (mkShape c h w) = Some (mkShape c h w).
Proof. intros Hc. unfold normalize; cbn [sc]. now rewrite Nat.eqb_refl, Hc. Qed.

Lemma shape_eqb_refl (x : Shape) : shape_eqb x x = true.
Proof. destruct x. unfold shape_eqb; cbn. now rewrite !Nat.eqb_refl. Qed.

Lemma resnet_shape (cin cout h w : nat) :
  cin mod 32 = 0 -> cout mod 32 = 0 -> 1 <= h -> 1 <= w ->
  resnet cin cout (mkShape cin h w) = Some (mkShape cout h w).
Proof.
  intros Hi Ho Hh Hw. unfold resnet.
  rewrite normalize_same, conv2d_same, normalize_same, conv2d_same by assumption.
  destruct (Nat.eqb cin cout) eqn:E; cbn [negb].
  - apply Nat.eqb_eq in E. subst cout. now rewrite shape_eqb_refl.
  - now rewrite conv2d_pointwise, shape_eqb_refl.
Qed.

Lemma attn_shape (c h w : nat) :
  c mod 32 = 0 -> 1 <= h -> 1 <= w -> attn c (mkShape c h w) = Some (mkShape c h w).
Proof.
  intros Hc Hh Hw. unfold attn.
  rewrite normalize_same, !conv2d_pointwise by assumption.
  now rewrite !shape_eqb_refl.
Qed.

Lemma downsample_shape (c h w : nat) :
  2 <= h -> 2 <= w -> downsample c (mkShape c h w) = Some (mkShape c (h / 2) (w / 2)).
Proof.
  intros Hh Hw. unfold downsample, conv2d; cbn [sc sh sw].
  now rewrite Nat.eqb_refl, !conv_dim_down.
Qed.

Lemma upsample_shape (c h w : nat) :
  1 <= h -> 1 <= w -> upsample c (mkShape c h w) = Some (mkShape c (2 * h) (2 * w)).
Proof.
  intros Hh Hw. unfold upsample, conv2d; cbn [sc sh sw].
  rewrite Nat.eqb_refl, !conv_dim_same by lia. reflexivity.
Qed.

Lemma res_chain_shape (n cin cout h w : nat) :
  cin mod 32 = 0 -> cout mod 32 = 0 -> 1 <= h -> 1 <= w ->
  res_chain (S n) cin cout (mkShape cin h w) = Some (mkShape cout h w).
Proof.
  revert cin. induction n as [|n IH]; intros cin Hi Ho Hh Hw; cbn [res_chain];
    rewrite resnet_shape by assumption.
  - reflexivity.
  - now apply IH.
Qed.

#[local] Ltac size_side := reflexivity || lia || (apply Nat.leb_le; reflexivity).

#[local] Ltac shape_step :=
  first
    [ rewrite conv2d_same by size_side
    | rewrite res_chain_shape by size_side
    | rewrite resnet_shape by size_side
    | rewrite attn_shape by size_side
    | rewrite normalize_same by size_side
    | rewrite downsample_shape by size_side
    | rewrite upsample_shape by size_side ].

(** X19: The default encoder of [SDVAE] maps a 3-channel image of height [h]
    and width [w], both at least 8, to [2 * z_channels = 32] channels of
    height [h / 8] and width [w / 8] (rounded down): three [Downsample]
    stages each halve the size, rounding down. *)
Theorem sd_encoder_shape (h w : nat) :
  8 <= h -> 8 <= w -> sd_encoder (mkShape 3 h w) = Some (mkShape 32 (h / 8) (w / 8)).
Proof.
  intros Hh Hw.
  assert (H1 : 4 <= h / 2) by (apply div2_ge; lia).
  assert (W1 : 4 <= w / 2) by (apply div2_ge; lia).
  assert (H2 : 2 <= h / 2 / 2) by (apply div2_ge; lia).
  assert (W2 : 2 <= w / 2 / 2) by (apply div2_ge; lia).
  assert (H3 : 1 <= h / 2 / 2 / 2) by (apply div2_ge; lia).
  assert (W3 : 1 <= w / 2 / 2 / 2) by (apply div2_ge; lia).
  unfold sd_encoder, encoder, enc_block_in. cbn [enc_down length nth Nat.sub Nat.eqb Nat.mul Nat.add].
  repeat shape_step.
  rewrite !Nat.Div0.div_div. reflexivity.
Qed.

(** X20: The default decoder of [SDVAE] maps a 16-channel latent of height
    [h] and width [w] (both at least 1) to a 3-channel image of height
    [8 * h] and width [8 * w]. *)
Theorem sd_decoder_shape (h w : nat) :
  1 <= h -> 1 <= w -> sd_decoder (mkShape 16 h w) = Some (mkShape 3 (8 * h) (8 * w)).
Proof.
  intros Hh Hw.
  unfold sd_decoder, decoder. cbn [dec_up length nth Nat.sub Nat.eqb Nat.mul Nat.add].
  repeat shape_step.
  f_equal; f_equal; lia.
Qed.

(** X21: Encoding an image of size [h] x [w] (both at least 8) with the default
    encoder, keeping the [mean] half of its channels as [SDVAE.encode]
    does, and decoding the 16-channel latent gives back a 3-channel image
    of size [8 * (h / 8)] x [8 * (w / 8)]: the size is restored exactly
    when [h] and [w] are multiples of 8, and otherwise the last
    [h mod 8] rows and [w mod 8] columns are lost. *)
Theorem sd_vae_roundtrip_shape (h w : nat) :
  8 <= h -> 8 <= w ->
  match sd_encoder (mkShape 3 h w) with
  | Some z => sd_decoder (chunk_mean z)
  | None => None
  end = Some (mkShape 3 (h - h mod 8) (w - w mod 8)).
Proof.
  intros Hh Hw. rewrite sd_encoder_shape by assumption.
  unfold chunk_mean; cbn [sc sh sw].
  change ((32 + 1) / 2) with 16.
  rewrite sd_decoder_shape by (apply Nat.div_le_lower_bound; lia).
  pose proof (Nat.div_mod_eq h 8). pose proof (Nat.div_mod_eq w 8).
  f_equal; f_equal; lia.
Qed.



End VAEShapeProofs.

Module VAEShapeWitnesses.
Import VAEShapes VAEShapeProofs.

Lemma sd_encoder_shape_witness :
  (8 <= 1024)%nat /\ (8 <= 768)%nat /\
  sd_encoder (mkShape 3 1024 768) = Some (mkShape 32 128 96).
Proof.
  split; [lia | split; [lia |]].
  exact (sd_encoder_shape 1024 768 ltac:(lia) ltac:(lia)).
Defined.

Lemma sd_decoder_shape_witness :
  (1 <= 128)%nat /\ (1 <= 96)%nat /\
  sd_decoder (mkShape 16 128 96) = Some (mkShape 3 1024 768).
Proof.
  split; [lia | split; [lia |]].
  exact (sd_decoder_shape 128 96 ltac:(lia) ltac:(lia)).
Defined.

Lemma sd_vae_roundtrip_shape_witness :
  (8 <= 1030)%nat /\ (8 <= 768)%nat /\
  match sd_encoder (mkShape 3 1030 768) with
  | Some z => sd_decoder (chunk_mean z)
  | None => None
  end = Some (mkShape 3 1024 768).
Proof.
  split; [lia | split; [lia |]].
  exact (sd_vae_roundtrip_shape 1030 768 ltac:(lia) ltac:(lia)).
Defined.


End VAEShapeWitnesses.
